(** * go-test-task: the URL batch service of [main.go]

    A shallow embedding of the request handler ([Handle]), the dispatcher
    ([QueryUrls]), the fetcher ([RequestUrl]) and the admission gate
    ([HandleConnection]).  Goroutines are modelled by an interleaving
    transition system: every program point at which a goroutine can be
    suspended (a channel operation, a [select], a [WaitGroup.Wait], the
    network call) is one atomic step of that goroutine. *)

From Stdlib Require Import Strings.String Strings.Ascii Strings.Byte.
From Stdlib Require Import NArith DecimalString.
From stdpp Require Import base tactics option list sets strings.

Local Open Scope string_scope.

(** ** Constants *)

Definition MaxUrlCount : nat := 20.
Definition MaxSimultaneousClients : nat := 100.
Definition MaxSimultaneousUrlRequests : nat := 4.

(** ** Data *)

(** [type Urls struct { Urls []string }]: the decoded request. *)
Definition Urls : Type := list string.

(** [UrlResult]: the Go [error] interface value is kept as the text that its
    [Error()] method returns; [None] is [nil]. *)
Record UrlResult : Type := mkUrlResult {
  Url : string;
  Response : list byte;
  error : option string
}.

(** [ResultToUser]: a nil slice is the empty list (the handler never builds
    an empty slice that is not nil). *)
Record ResultToUser : Type := mkResultToUser {
  Error : string;
  Responses : list UrlResult
}.

Definition emptyResult : ResultToUser := mkResultToUser EmptyString [].

(** ** The fetcher *)

(** What [client.Get(url)] followed by [ioutil.ReadAll(resp.Body)] can
    produce: either [Get] fails, or it yields a response with some status
    code whose body is then read, giving the bytes read and the reader's
    error. *)
Inductive GetOutcome : Type :=
| GetFailed (err : string)
| GetResponse (statusCode : nat) (read : list byte) (readErr : option string).

Definition RequestUrl (get : string -> GetOutcome) (url : string)
  : list byte * option string :=
  match get url with
  | GetFailed err => ([], Some err)
  | GetResponse _ read readErr => (read, readErr)
  end.

(** ** encoding/json for [ResultToUser] *)

Definition dquote : ascii := ascii_of_nat 34.
Definition backslash : ascii := ascii_of_nat 92.

Definition str1 (c : ascii) : string := String c EmptyString.

Definition hexdigit (n : N) : ascii :=
  match String.get (N.to_nat n) "0123456789abcdef" with
  | Some c => c
  | None => "0"%char
  end.

(** One byte of a Go string as the encoder writes it (HTML escaping on, as
    [json.Marshal] has it).  Bytes from 128 on are copied: the text is taken
    to be well-formed UTF-8 without U+2028 and U+2029. *)
Definition json_char (c : ascii) : string :=
  let n := N_of_ascii c in
  if (n =? 34)%N || (n =? 92)%N then String backslash (str1 c)
  else if (n =? 8)%N then String backslash "b"
  else if (n =? 12)%N then String backslash "f"
  else if (n =? 10)%N then String backslash "n"
  else if (n =? 13)%N then String backslash "r"
  else if (n =? 9)%N then String backslash "t"
  else if (n <? 32)%N || (n =? 60)%N || (n =? 62)%N || (n =? 38)%N then
    String backslash ("u00" +:+ String (hexdigit (n / 16)) (str1 (hexdigit (n mod 16))))
  else str1 c.

Fixpoint json_chars (s : string) : string :=
  match s with
  | EmptyString => EmptyString
  | String c rest => json_char c +:+ json_chars rest
  end.

Definition json_string (s : string) : string :=
  String dquote (json_chars s +:+ str1 dquote).

Definition b64 (n : N) : ascii :=
  match String.get (N.to_nat n)
          "ABCDEFGHIJKLMNOPQRSTUVWXYZabcdefghijklmnopqrstuvwxyz0123456789+/" with
  | Some c => c
  | None => "="%char
  end.

(** [base64.StdEncoding], which is how the encoder writes a [[]byte]. *)
Fixpoint base64 (bs : list byte) : string :=
  match bs with
  | [] => EmptyString
  | [a] =>
      let x := Byte.to_N a in
      String (b64 (x / 4)) (String (b64 ((x mod 4) * 16)) "==")
  | [a; b] =>
      let x := Byte.to_N a in
      let y := Byte.to_N b in
      String (b64 (x / 4)) (String (b64 ((x mod 4) * 16 + y / 16))
        (String (b64 ((y mod 16) * 4)) "="))
  | a :: b :: c :: rest =>
      let x := Byte.to_N a in
      let y := Byte.to_N b in
      let z := Byte.to_N c in
      String (b64 (x / 4)) (String (b64 ((x mod 4) * 16 + y / 16))
        (String (b64 ((y mod 16) * 4 + z / 64)) (String (b64 (z mod 64))
          (base64 rest))))
  end%N.

(** The unexported field [error] is not written. *)
Definition marshal_UrlResult (r : UrlResult) : string :=
  "{" +:+ json_string "url" +:+ ":" +:+ json_string (Url r) +:+ ","
      +:+ json_string "response" +:+ ":"
      +:+ String dquote (base64 (Response r) +:+ str1 dquote) +:+ "}".

Fixpoint join_comma (l : list string) : string :=
  match l with
  | [] => EmptyString
  | [x] => x
  | x :: rest => x +:+ "," +:+ join_comma rest
  end.

Definition marshal_Responses (l : list UrlResult) : string :=
  match l with
  | [] => "null"
  | _ => "[" +:+ join_comma (map marshal_UrlResult l) +:+ "]"
  end.

(** [json.Marshal(results)]: the encoding or an error.  Strings, byte slices
    and slices of such structs always encode. *)
Definition json_Marshal (r : ResultToUser) : string + string :=
  inl ("{" +:+ json_string "error" +:+ ":" +:+ json_string (Error r) +:+ ","
           +:+ json_string "responses" +:+ ":" +:+ marshal_Responses (Responses r)
           +:+ "}").

(** ** net/http: what a handler leaves on its [ResponseWriter] *)

Record HttpResponse : Type := mkHttpResponse {
  status : nat;
  contentType : string;
  body : string
}.

Definition StatusBadRequest : nat := 400.
Definition StatusMethodNotAllowed : nat := 405.
Definition StatusInternalServerError : nat := 500.
Definition StatusOK : nat := 200.

Definition StatusText (code : nat) : string :=
  if (code =? 400)%nat then "Bad Request"
  else if (code =? 405)%nat then "Method Not Allowed"
  else if (code =? 500)%nat then "Internal Server Error"
  else if (code =? 200)%nat then "OK"
  else EmptyString.

Definition newline : string := str1 (ascii_of_nat 10).

(** [http.Error(rw, msg, code)]. *)
Definition http_Error (msg : string) (code : nat) : HttpResponse :=
  mkHttpResponse code "text/plain; charset=utf-8" (msg +:+ newline).

(** [fmt.Sprintf] of a [%d]. *)
Definition sprint_d (n : nat) : string := NilEmpty.string_of_uint (Nat.to_uint n).

(** ** The incoming request *)

(** The result of [ioutil.ReadAll(r.Body)] and of [json.Unmarshal] on what
    was read: the body cannot be read, it is not JSON for [Urls], or it
    decodes to a request (an absent or null [urls] decodes to the nil
    slice). *)
Inductive BodyOutcome : Type :=
| BodyUnreadable
| BodyMalformed
| BodyDecoded (request : Urls).

Record Request : Type := mkRequest {
  Method : string;
  Body : BodyOutcome
}.

Definition MethodPost : string := "POST".

(** Lines 108-130 of [Handle]: either the early reply or the accepted URL
    list. *)
Definition Handle_validate (r : Request) : HttpResponse + Urls :=
  if negb (String.eqb (Method r) MethodPost) then
    inl (http_Error (StatusText StatusMethodNotAllowed) StatusMethodNotAllowed)
  else
    match Body r with
    | BodyUnreadable => inl (http_Error "Could not read body" StatusBadRequest)
    | BodyMalformed => inl (http_Error "Incorrect json in request" StatusBadRequest)
    | BodyDecoded request =>
        if (MaxUrlCount <? List.length request)%nat then
          inl (http_Error ("Maximum allowed urls in one request is " +:+ sprint_d MaxUrlCount)
                 StatusBadRequest)
        else inr request
    end.

(** ** The goroutines of one request *)

(** [Handle] after validation: at the test of the collecting loop with
    counter [i], at [wait.Wait()], or returned. *)
Inductive HandlerPc : Type :=
| HLoop (i : nat)
| HWait
| HReturned.

(** [QueryUrls]: never launched (the request was refused), in the spawning
    loop with counter [i], in the loop that sends the URLs still in [rest] to
    [tasks] (followed by [close(tasks)]), at [wg.Wait()], or returned. *)
Inductive DispatcherPc : Type :=
| DIdle
| DSpawn (i : nat)
| DFeed (rest : list string)
| DWait
| DReturned.

(** A worker goroutine: at its [select], about to call [RequestUrl(task)],
    about to send its result on [out], or returned. *)
Inductive WorkerPc : Type :=
| WSelect
| WFetch (task : string)
| WSend (r : UrlResult)
| WExited.

(** The channel of [CloseNotify]: it receives one value when the client
    connection goes away. *)
Inductive CloseNotify : Type :=
| CNOpen
| CNPending
| CNTaken.

Record State : Type := mkState {
  urls : Urls;  (* [request.Urls] *)
  workersCount : nat;
  results : ResultToUser;
  needToSend : bool;
  hpc : HandlerPc;  (* where [Handle] stands *)
  written : option HttpResponse;  (* what [Handle] has written to [rw] *)
  dpc : DispatcherPc;  (* where [QueryUrls] stands *)
  workers : list WorkerPc;  (* the goroutines of [QueryUrls], in spawning order *)
  tasks : list string;  (* buffer of the channel [tasks] *)
  tasksClosed : bool;
  pipeline : list UrlResult;  (* buffer of the channel [pipeline] *)
  quit : bool;  (* [quit] is closed *)
  wg : nat;  (* counter of [wg] *)
  wait : nat;  (* counter of [wait] *)
  connectionClose : CloseNotify;
  drawn : list string;  (* history: tasks received from [tasks] *)
  fetched : list UrlResult;  (* history: what the calls of [RequestUrl] returned *)
  emitted : list UrlResult;  (* history: what was sent on [pipeline] *)
  received : list UrlResult  (* history: what [Handle] received from [pipeline] *)
}.

Definition set_results (v : ResultToUser) (s : State) : State :=
  mkState (urls s) (workersCount s) v (needToSend s) (hpc s) (written s)
    (dpc s) (workers s) (tasks s) (tasksClosed s) (pipeline s) (quit s) (wg s)
    (wait s) (connectionClose s) (drawn s) (fetched s) (emitted s)
    (received s).

Definition set_needToSend (v : bool) (s : State) : State :=
  mkState (urls s) (workersCount s) (results s) v (hpc s) (written s) (dpc s)
    (workers s) (tasks s) (tasksClosed s) (pipeline s) (quit s) (wg s)
    (wait s) (connectionClose s) (drawn s) (fetched s) (emitted s)
    (received s).

Definition set_hpc (v : HandlerPc) (s : State) : State :=
  mkState (urls s) (workersCount s) (results s) (needToSend s) v (written s)
    (dpc s) (workers s) (tasks s) (tasksClosed s) (pipeline s) (quit s) (wg s)
    (wait s) (connectionClose s) (drawn s) (fetched s) (emitted s)
    (received s).

Definition set_written (v : option HttpResponse) (s : State) : State :=
  mkState (urls s) (workersCount s) (results s) (needToSend s) (hpc s) v
    (dpc s) (workers s) (tasks s) (tasksClosed s) (pipeline s) (quit s) (wg s)
    (wait s) (connectionClose s) (drawn s) (fetched s) (emitted s)
    (received s).

Definition set_dpc (v : DispatcherPc) (s : State) : State :=
  mkState (urls s) (workersCount s) (results s) (needToSend s) (hpc s)
    (written s) v (workers s) (tasks s) (tasksClosed s) (pipeline s) (quit s)
    (wg s) (wait s) (connectionClose s) (drawn s) (fetched s) (emitted s)
    (received s).

Definition set_workers (v : list WorkerPc) (s : State) : State :=
  mkState (urls s) (workersCount s) (results s) (needToSend s) (hpc s)
    (written s) (dpc s) v (tasks s) (tasksClosed s) (pipeline s) (quit s)
    (wg s) (wait s) (connectionClose s) (drawn s) (fetched s) (emitted s)
    (received s).

Definition set_tasks (v : list string) (s : State) : State :=
  mkState (urls s) (workersCount s) (results s) (needToSend s) (hpc s)
    (written s) (dpc s) (workers s) v (tasksClosed s) (pipeline s) (quit s)
    (wg s) (wait s) (connectionClose s) (drawn s) (fetched s) (emitted s)
    (received s).

Definition set_tasksClosed (v : bool) (s : State) : State :=
  mkState (urls s) (workersCount s) (results s) (needToSend s) (hpc s)
    (written s) (dpc s) (workers s) (tasks s) v (pipeline s) (quit s) (wg s)
    (wait s) (connectionClose s) (drawn s) (fetched s) (emitted s)
    (received s).

Definition set_pipeline (v : list UrlResult) (s : State) : State :=
  mkState (urls s) (workersCount s) (results s) (needToSend s) (hpc s)
    (written s) (dpc s) (workers s) (tasks s) (tasksClosed s) v (quit s)
    (wg s) (wait s) (connectionClose s) (drawn s) (fetched s) (emitted s)
    (received s).

Definition set_quit (v : bool) (s : State) : State :=
  mkState (urls s) (workersCount s) (results s) (needToSend s) (hpc s)
    (written s) (dpc s) (workers s) (tasks s) (tasksClosed s) (pipeline s) v
    (wg s) (wait s) (connectionClose s) (drawn s) (fetched s) (emitted s)
    (received s).

Definition set_wg (v : nat) (s : State) : State :=
  mkState (urls s) (workersCount s) (results s) (needToSend s) (hpc s)
    (written s) (dpc s) (workers s) (tasks s) (tasksClosed s) (pipeline s)
    (quit s) v (wait s) (connectionClose s) (drawn s) (fetched s) (emitted s)
    (received s).

Definition set_wait (v : nat) (s : State) : State :=
  mkState (urls s) (workersCount s) (results s) (needToSend s) (hpc s)
    (written s) (dpc s) (workers s) (tasks s) (tasksClosed s) (pipeline s)
    (quit s) (wg s) v (connectionClose s) (drawn s) (fetched s) (emitted s)
    (received s).

Definition set_connectionClose (v : CloseNotify) (s : State) : State :=
  mkState (urls s) (workersCount s) (results s) (needToSend s) (hpc s)
    (written s) (dpc s) (workers s) (tasks s) (tasksClosed s) (pipeline s)
    (quit s) (wg s) (wait s) v (drawn s) (fetched s) (emitted s) (received s).

Definition set_drawn (v : list string) (s : State) : State :=
  mkState (urls s) (workersCount s) (results s) (needToSend s) (hpc s)
    (written s) (dpc s) (workers s) (tasks s) (tasksClosed s) (pipeline s)
    (quit s) (wg s) (wait s) (connectionClose s) v (fetched s) (emitted s)
    (received s).

Definition set_fetched (v : list UrlResult) (s : State) : State :=
  mkState (urls s) (workersCount s) (results s) (needToSend s) (hpc s)
    (written s) (dpc s) (workers s) (tasks s) (tasksClosed s) (pipeline s)
    (quit s) (wg s) (wait s) (connectionClose s) (drawn s) v (emitted s)
    (received s).

Definition set_emitted (v : list UrlResult) (s : State) : State :=
  mkState (urls s) (workersCount s) (results s) (needToSend s) (hpc s)
    (written s) (dpc s) (workers s) (tasks s) (tasksClosed s) (pipeline s)
    (quit s) (wg s) (wait s) (connectionClose s) (drawn s) (fetched s) v
    (received s).

Definition set_received (v : list UrlResult) (s : State) : State :=
  mkState (urls s) (workersCount s) (results s) (needToSend s) (hpc s)
    (written s) (dpc s) (workers s) (tasks s) (tasksClosed s) (pipeline s)
    (quit s) (wg s) (wait s) (connectionClose s) (drawn s) (fetched s)
    (emitted s) v.

(** Lines 136-140. *)
Definition workersCountFor (request : Urls) : nat :=
  if (List.length request <? MaxSimultaneousUrlRequests)%nat then List.length request
  else MaxSimultaneousUrlRequests.

(** Lines 183-193: the reply for [results]. *)
Definition reply (r : ResultToUser) : HttpResponse :=
  match json_Marshal r with
  | inr _ => http_Error (StatusText StatusInternalServerError) StatusInternalServerError
  | inl res => mkHttpResponse StatusOK "application/json" res
  end.

(** Lines 132-150: [Handle] has launched [QueryUrls] and enters its loop. *)
Definition start (request : Urls) : State :=
  mkState request (workersCountFor request) emptyResult true (HLoop 0) None
    (DSpawn 0) [] [] false [] false 0 1 CNOpen [] [] [] [].

(** [Handle] has replied with [http.Error] and returned. *)
Definition refused (resp : HttpResponse) : State :=
  mkState [] 0 emptyResult true HReturned (Some resp)
    DIdle [] [] false [] false 0 0 CNOpen [] [] [] [].

Definition Handle_begin (r : Request) : State :=
  match Handle_validate r with
  | inl resp => refused resp
  | inr request => start request
  end.

(** One atomic step of one goroutine, or of the client.  A [select] whose
    cases can both proceed takes either: each case is an action of its own. *)
Inductive Action : Type :=
| HandlerCloseNotify                      (* Handle: case <-connectionClose *)
| HandlerResult                           (* Handle: case res := <-pipeline *)
| HandlerAdvance                          (* Handle: leave the loop; pass wait.Wait() and reply *)
| Dispatcher                              (* QueryUrls: its next statement *)
| WorkerTask (w : nat)                    (* worker w: case task, ok := <-tasks *)
| WorkerQuit (w : nat)                    (* worker w: case <-quit *)
| WorkerFetch (w : nat) (o : GetOutcome)  (* worker w: RequestUrl(task) returns *)
| WorkerSend (w : nat)                    (* worker w: out <- UrlResult{...} *)
| ClientDisconnect.                       (* the connection goes away *)

(** [Handle], lines 152-193. *)

Definition Handle_step (s : State) (a : Action) : option State :=
  match a, hpc s with
  | HandlerCloseNotify, HLoop i =>
      (* case <-connectionClose *)
      match connectionClose s with
      | CNPending =>
          if (i <? List.length (urls s))%nat then
            Some (set_hpc HWait (set_needToSend false (set_quit true
                   (set_connectionClose CNTaken s))))
          else None
      | _ => None
      end
  | HandlerResult, HLoop i =>
      (* case res := <-pipeline *)
      match pipeline s with
      | res :: rest =>
          if (i <? List.length (urls s))%nat then
            let s1 := set_received (received s ++ [res]) (set_pipeline rest s) in
            match error res with
            | Some e =>
                Some (set_hpc HWait (set_results (mkResultToUser e []) (set_quit true s1)))
            | None =>
                Some (set_hpc (HLoop (S i))
                        (set_results (mkResultToUser (Error (results s))
                                        (Responses (results s) ++ [res])) s1))
            end
          else None
      | [] => None
      end
  | HandlerAdvance, HLoop i =>
      if (i <? List.length (urls s))%nat then None else Some (set_hpc HWait s)
  | HandlerAdvance, HWait =>
      (* wait.Wait(), then lines 183-193 *)
      if (wait s =? 0)%nat then
        Some (set_hpc HReturned
                (if needToSend s then set_written (Some (reply (results s))) s else s))
      else None
  | _, _ => None
  end.

(** [QueryUrls], lines 67-104: spawn [workersCount] workers ([wg.Add(1)] and
    [go]), send every URL to [tasks] (which holds [len(urls)] values), close
    it, wait for [wg], and on return run the deferred [parentWg.Done()]. *)
Definition QueryUrls_step (s : State) : option State :=
  match dpc s with
  | DIdle => None
  | DSpawn i =>
      if (i <? workersCount s)%nat then
        Some (set_dpc (DSpawn (S i)) (set_workers (workers s ++ [WSelect])
               (set_wg (S (wg s)) s)))
      else Some (set_dpc (DFeed (urls s)) s)
  | DFeed (url :: rest) =>
      if (List.length (tasks s) <? List.length (urls s))%nat then
        Some (set_dpc (DFeed rest) (set_tasks (tasks s ++ [url]) s))
      else None
  | DFeed [] => Some (set_dpc DWait (set_tasksClosed true s))
  | DWait =>
      if (wg s =? 0)%nat then Some (set_dpc DReturned (set_wait (pred (wait s)) s))
      else None
  | DReturned => None
  end.

(** A worker returns: the deferred [wg.Done()] runs. *)
Definition workerExit (w : nat) (s : State) : State :=
  set_workers (<[w := WExited]> (workers s)) (set_wg (pred (wg s)) s).

(** The goroutine of lines 75-93.  A receive from [tasks] yields the oldest
    buffered value, or [ok = false] once the channel is closed and empty;
    [out] holds [len(urls)] values. *)
Definition worker_step (s : State) (a : Action) : option State :=
  match a with
  | WorkerTask w =>
      match workers s !! w with
      | Some WSelect =>
          match tasks s with
          | task :: rest =>
              Some (set_workers (<[w := WFetch task]> (workers s))
                     (set_drawn (drawn s ++ [task]) (set_tasks rest s)))
          | [] => if tasksClosed s then Some (workerExit w s) else None
          end
      | _ => None
      end
  | WorkerQuit w =>
      match workers s !! w with
      | Some WSelect => if quit s then Some (workerExit w s) else None
      | _ => None
      end
  | WorkerFetch w o =>
      match workers s !! w with
      | Some (WFetch task) =>
          let '(result, err) := RequestUrl (fun _ => o) task in
          let r := mkUrlResult task result err in
          Some (set_workers (<[w := WSend r]> (workers s))
                 (set_fetched (fetched s ++ [r]) s))
      | _ => None
      end
  | WorkerSend w =>
      match workers s !! w with
      | Some (WSend r) =>
          if (List.length (pipeline s) <? List.length (urls s))%nat then
            Some (set_workers (<[w := WSelect]> (workers s))
                   (set_emitted (emitted s ++ [r]) (set_pipeline (pipeline s ++ [r]) s)))
          else None
      | _ => None
      end
  | _ => None
  end.

Definition step (s : State) (a : Action) : option State :=
  match a with
  | HandlerCloseNotify | HandlerResult | HandlerAdvance => Handle_step s a
  | Dispatcher => QueryUrls_step s
  | WorkerTask _ | WorkerQuit _ | WorkerFetch _ _ | WorkerSend _ => worker_step s a
  | ClientDisconnect =>
      match connectionClose s with
      | CNOpen => Some (set_connectionClose CNPending s)
      | _ => None
      end
  end.

(** A schedule is a list of actions; [run] follows it. *)
Fixpoint run (s : State) (sched : list Action) : option State :=
  match sched with
  | [] => Some s
  | a :: rest =>
      match step s a with
      | Some s' => run s' rest
      | None => None
      end
  end.

(** ** Bookkeeping over the worker pool *)

Local Close Scope string_scope.

Definition taskOf (w : WorkerPc) : list string :=
  match w with WFetch task => [task] | _ => [] end.

Definition resultOf (w : WorkerPc) : list UrlResult :=
  match w with WSend r => [r] | _ => [] end.

Definition alive (w : WorkerPc) : nat :=
  match w with WExited => 0 | _ => 1 end.

(** Tasks drawn and not yet fetched; results fetched and not yet sent;
    goroutines that have not returned. *)
Definition inflightTasks (ws : list WorkerPc) : list string := ws ≫= taskOf.
Definition inflightResults (ws : list WorkerPc) : list UrlResult := ws ≫= resultOf.
Definition aliveCount (ws : list WorkerPc) : nat := sum_list_with alive ws.

(** The URLs that [QueryUrls] has still to send to [tasks]. *)
Definition pendingFeed (s : State) : list string :=
  match dpc s with
  | DSpawn _ => urls s
  | DFeed rest => rest
  | _ => []
  end.

(** ** Invariant: where every URL of the request is *)

(** Each URL goes from the dispatcher's loop to [tasks], to a worker, through
    [RequestUrl], onto [pipeline] and to [Handle]; the channels are FIFO, the
    pool is not ordered. *)
Record FlowInv (s : State) : Prop := mkFlowInv {
  flow_tasks : drawn s ++ tasks s ++ pendingFeed s = urls s;
  flow_fetch : drawn s ≡ₚ (Url <$> fetched s) ++ inflightTasks (workers s);
  flow_send : fetched s ≡ₚ emitted s ++ inflightResults (workers s);
  flow_pipe : emitted s = received s ++ pipeline s
}.

(** ** Invariant: the variables of [Handle] *)

Definition succeeded (r : UrlResult) : Prop := error r = None.

Record HandlerInv (s : State) : Prop := mkHandlerInv {
  (* in the loop: [quit] is open and [i] results have been received *)
  h_loop : forall i, hpc s = HLoop i ->
    quit s = false /\ length (received s) = i /\ i <= length (urls s);
  (* [quit] open: every result received so far is a success and is kept *)
  h_open : quit s = false ->
    needToSend s = true /\ Error (results s) = EmptyString /\
    Responses (results s) = received s /\ Forall succeeded (received s);
  (* [quit] open after the loop: the loop ran to its end *)
  h_full : quit s = false -> (forall i, hpc s <> HLoop i) ->
    length (received s) = length (urls s);
  (* [quit] closed by the error branch: the last result received is the
     first failure, its text is the error, nothing else is kept *)
  h_failed : quit s = true -> needToSend s = true ->
    Responses (results s) = [] /\
    exists pre r, received s = pre ++ [r] /\ Forall succeeded pre /\
                  error r = Some (Error (results s));
  h_silent : hpc s <> HReturned -> written s = None;
  h_reply : hpc s = HReturned -> dpc s <> DIdle ->
    written s = if needToSend s then Some (reply (results s)) else None;
  (* [needToSend] is cleared by the [connectionClose] case and only there *)
  h_taken : connectionClose s = CNTaken ->
    needToSend s = false /\ 0 < length (urls s);
  h_nosend : needToSend s = false -> connectionClose s = CNTaken
}.

(** ** Invariant: the wait groups *)

Record JoinInv (s : State) : Prop := mkJoinInv {
  j_wg : wg s = aliveCount (workers s);
  j_pool : length (workers s) =
           match dpc s with DIdle => 0 | DSpawn i => i | _ => workersCount s end;
  j_spawn : forall i, dpc s = DSpawn i -> i <= workersCount s;
  j_wait : wait s = match dpc s with DIdle | DReturned => 0 | _ => 1 end;
  j_joined : dpc s = DReturned -> wg s = 0;
  j_handler : hpc s = HReturned -> wait s = 0;
  j_count : workersCount s = workersCountFor (urls s)
}.

(** ** The invariants hold along every run of [Handle] *)

Definition Inv (s : State) : Prop := FlowInv s /\ HandlerInv s /\ JoinInv s.


(** ** Invariant: closing of [tasks] *)

Record CloseInv (s : State) : Prop := mkCloseInv {
  (* [tasks] is closed exactly after the feeding loop *)
  c_closed : tasksClosed s = true <-> (dpc s = DWait \/ dpc s = DReturned);
  (* with [quit] open a worker returns only from an empty, closed [tasks] *)
  c_exited : quit s = false -> WExited ∈ workers s ->
    tasks s = [] /\ tasksClosed s = true;
  c_refused : dpc s = DIdle -> hpc s = HReturned
}.

(** ** A measure that every step decreases *)

Definition weight (w : WorkerPc) : nat :=
  match w with
  | WSelect => 1
  | WFetch _ => 3
  | WSend _ => 2
  | WExited => 0
  end.

Definition handlerFuel (s : State) : nat :=
  match hpc s with
  | HLoop i => (length (urls s) - i) + 2
  | HWait => 1
  | HReturned => 0
  end.

Definition dispatcherFuel (s : State) : nat :=
  match dpc s with
  | DIdle => 0
  | DSpawn i => 2 * (workersCount s - i) + 3
  | DFeed _ => 2
  | DWait => 1
  | DReturned => 0
  end.

Definition clientFuel (s : State) : nat :=
  match connectionClose s with
  | CNOpen => 2
  | CNPending => 1
  | CNTaken => 0
  end.

Definition fuel (s : State) : nat :=
  handlerFuel s + dispatcherFuel s + clientFuel s +
  sum_list_with weight (workers s) + 3 * length (tasks s) + 4 * length (pendingFeed s).

(** ** Vocabulary of the properties *)

(** What a worker sends for [url] when its fetcher behaves as [get]. *)
Definition resultFor (get : string -> GetOutcome) (url : string) : UrlResult :=
  let '(result, err) := RequestUrl get url in mkUrlResult url result err.

(** Every call of [RequestUrl] in the run answered as the fixed fetcher
    [get] does. *)
Definition fetchedWith (get : string -> GetOutcome) (s : State) : Prop :=
  Forall (fun r => r = resultFor get (Url r)) (fetched s).

Definition exited (w : WorkerPc) : Prop := w = WExited.

(** The failure state of the reply: nothing kept, and the error is the text
    of a fetch that failed. *)
Definition failureState (s : State) : Prop :=
  Responses (results s) = [] /\
  exists r0, r0 ∈ fetched s /\ error r0 = Some (Error (results s)).

(** The success state for the URL list [request]. *)
Definition successState (request : Urls) (s : State) : Prop :=
  Error (results s) = EmptyString /\
  length (Responses (results s)) = length request /\
  Url <$> Responses (results s) ≡ₚ request.

Definition quoted (s : string) : string := String dquote (s +:+ str1 dquote).

(** The JSON text with an empty error and a null [responses]. *)
Definition emptyReplyBody : string :=
  ("{" +:+ quoted "error" +:+ ":" +:+ quoted EmptyString +:+ ","
       +:+ quoted "responses" +:+ ":null}")%string.

(** ** Sample requests, fetchers and schedules *)

Definition urlA : string := "http://a"%string.
Definition urlB : string := "http://b"%string.

Definition okA : GetOutcome := GetResponse 200 [x41] None.
Definition okB : GetOutcome := GetResponse 200 [x42] None.
Definition timedOut : GetOutcome := GetFailed "timeout"%string.

(** A fetcher with fixed payloads. *)
Definition mock (url : string) : GetOutcome :=
  if String.eqb url urlA then okA
  else if String.eqb url urlB then okB
  else GetFailed "no such host"%string.

Definition postNone : Request := mkRequest MethodPost (BodyDecoded []).
Definition postA : Request := mkRequest MethodPost (BodyDecoded [urlA]).
Definition postAB : Request := mkRequest MethodPost (BodyDecoded [urlA; urlB]).
Definition postMany : Request := mkRequest MethodPost (BodyDecoded (replicate 21 urlA)).

(** [QueryUrls] spawns its workers, fills [tasks] and closes it. *)
Definition launch1 : list Action := replicate 4 Dispatcher.
Definition launch2 : list Action := replicate 6 Dispatcher.

(** Both URLs succeed; [urlA] comes back first. *)
Definition schedAB : list Action :=
  launch2 ++
  [WorkerTask 0; WorkerFetch 0 okA; WorkerSend 0;
   WorkerTask 1; WorkerFetch 1 okB; WorkerSend 1;
   HandlerResult; HandlerResult; WorkerTask 0; WorkerTask 1; Dispatcher;
   HandlerAdvance; HandlerAdvance].

(** Both URLs succeed; [urlB] comes back first. *)
Definition schedBA : list Action :=
  launch2 ++
  [WorkerTask 0; WorkerTask 1; WorkerFetch 1 okB; WorkerSend 1;
   WorkerFetch 0 okA; WorkerSend 0;
   HandlerResult; HandlerResult; WorkerTask 0; WorkerTask 1; Dispatcher;
   HandlerAdvance; HandlerAdvance].

(** [urlA] succeeds and is collected, then [urlB] times out. *)
Definition schedFailB : list Action :=
  launch2 ++
  [WorkerTask 0; WorkerFetch 0 okA; WorkerSend 0; HandlerResult;
   WorkerTask 1; WorkerFetch 1 timedOut; WorkerSend 1; HandlerResult;
   WorkerQuit 0; WorkerTask 1; Dispatcher; HandlerAdvance].

(** As before, but the client goes away before [Handle] sees the failure. *)
Definition schedGoneB : list Action :=
  launch2 ++
  [WorkerTask 0; WorkerFetch 0 okA; WorkerSend 0; HandlerResult;
   WorkerTask 1; WorkerFetch 1 timedOut; WorkerSend 1;
   ClientDisconnect; HandlerCloseNotify;
   WorkerQuit 0; WorkerQuit 1; Dispatcher; HandlerAdvance].

(** One URL, fetched; the client goes away and [select] takes that case. *)
Definition schedGoneA : list Action :=
  launch1 ++
  [WorkerTask 0; WorkerFetch 0 okA; WorkerSend 0;
   ClientDisconnect; HandlerCloseNotify;
   WorkerQuit 0; Dispatcher; HandlerAdvance].

(** One URL, fetched; the client goes away and [select] takes the result. *)
Definition schedLateA : list Action :=
  launch1 ++
  [WorkerTask 0; WorkerFetch 0 okA; WorkerSend 0;
   ClientDisconnect; HandlerResult;
   WorkerTask 0; Dispatcher; HandlerAdvance; HandlerAdvance].

(** No URL at all. *)
Definition schedNone : list Action :=
  [Dispatcher; Dispatcher; Dispatcher; HandlerAdvance; HandlerAdvance].

Definition finalOf (r : Request) (sched : list Action) : State :=
  match run (Handle_begin r) sched with
  | Some s => s
  | None => Handle_begin r
  end.

Definition afterAB : State := Eval vm_compute in finalOf postAB schedAB.
Definition afterBA : State := Eval vm_compute in finalOf postAB schedBA.
Definition afterFailB : State := Eval vm_compute in finalOf postAB schedFailB.
Definition afterGoneB : State := Eval vm_compute in finalOf postAB schedGoneB.
Definition afterGoneA : State := Eval vm_compute in finalOf postA schedGoneA.
Definition afterLateA : State := Eval vm_compute in finalOf postA schedLateA.
Definition afterNone : State := Eval vm_compute in finalOf postNone schedNone.
Definition afterMany : State := Eval vm_compute in finalOf postMany [ClientDisconnect].

(** [schedLateA] up to the moment the client goes away, and after it. *)
Definition schedLateA_before : list Action :=
  launch1 ++ [WorkerTask 0; WorkerFetch 0 okA; WorkerSend 0; ClientDisconnect].
Definition schedLateA_after : list Action :=
  [HandlerResult; WorkerTask 0; Dispatcher; HandlerAdvance; HandlerAdvance].
Definition duringLateA : State := Eval vm_compute in finalOf postA schedLateA_before.

(** The body of the failure scenario of the specification. *)
Definition timeoutReplyBody : string :=
  ("{" +:+ quoted "error" +:+ ":" +:+ quoted "timeout" +:+ ","
       +:+ quoted "responses" +:+ ":null}")%string.

(** ** More sample runs *)

Definition getA : Request := mkRequest "GET"%string (BodyDecoded [urlA]).
Definition afterGet : State := Eval vm_compute in finalOf getA [ClientDisconnect].

(** Both workers have drawn their task. *)
Definition schedTwoDrawn : list Action := launch2 ++ [WorkerTask 0; WorkerTask 1].
Definition duringTwoDrawn : State := Eval vm_compute in finalOf postAB schedTwoDrawn.

(** Worker 0 holds the result of [urlA]. *)
Definition schedHolding : list Action := launch2 ++ [WorkerTask 0; WorkerFetch 0 okA].
Definition duringHolding : State := Eval vm_compute in finalOf postAB schedHolding.

(** [urlB] times out first and [Handle] cancels while [urlA] is being
    fetched; the fetch of [urlA] then succeeds and is sent. *)
Definition schedCancelled : list Action :=
  launch2 ++ [WorkerTask 0; WorkerTask 1; WorkerFetch 1 timedOut; WorkerSend 1;
              HandlerResult].
Definition schedAfterCancel : list Action :=
  [WorkerFetch 0 okA; WorkerSend 0; WorkerQuit 0; WorkerQuit 1; Dispatcher;
   HandlerAdvance].
Definition duringCancelled : State := Eval vm_compute in finalOf postAB schedCancelled.
Definition afterCancelled : State :=
  Eval vm_compute in finalOf postAB (schedCancelled ++ schedAfterCancel).

(** * The admission gate: [HandleConnection] *)

Module Gate.

(** One request at the gate: at the [select], inside the wrapped handler,
    answered with the refusal, or through (the wrapped handler returned, or
    panicked, and the deferred receive from [limiter] ran). *)
Inductive Conn : Type :=
| Waiting
| Serving
| Refused
| Through (panicked : bool).

Record Gate : Type := mkGate {
  limiter : nat;        (* values held by the channel [limiter] *)
  shutdown : bool;      (* [shutdown] is closed *)
  conns : list Conn     (* the requests, in order of arrival *)
}.

Inductive Event : Type :=
| Arrive                              (* a request enters the handler *)
| TakeShutdown (c : nat)              (* case <-shutdown *)
| TakeSlot (c : nat)                  (* case limiter <- struct{}{} *)
| Leave (c : nat) (panicked : bool)   (* h.ServeHTTP ends; the defer runs *)
| Close.                              (* close(quit) in main *)

Definition opened : Gate := mkGate 0 false [].

(** What the gate itself writes for a request. *)
Definition gateReply (c : Conn) : option HttpResponse :=
  match c with
  | Refused =>
      Some (http_Error (StatusText StatusInternalServerError) StatusInternalServerError)
  | _ => None
  end.

Definition HandleConnection_step (g : Gate) (e : Event) : option Gate :=
  match e with
  | Arrive => Some (mkGate (limiter g) (shutdown g) (conns g ++ [Waiting]))
  | TakeShutdown c =>
      match conns g !! c with
      | Some Waiting =>
          if shutdown g then
            Some (mkGate (limiter g) (shutdown g) (<[c := Refused]> (conns g)))
          else None
      | _ => None
      end
  | TakeSlot c =>
      match conns g !! c with
      | Some Waiting =>
          if (limiter g <? MaxSimultaneousClients)%nat then
            Some (mkGate (S (limiter g)) (shutdown g) (<[c := Serving]> (conns g)))
          else None
      | _ => None
      end
  | Leave c panicked =>
      match conns g !! c with
      | Some Serving =>
          if (0 <? limiter g)%nat then
            Some (mkGate (pred (limiter g)) (shutdown g)
                    (<[c := Through panicked]> (conns g)))
          else None
      | _ => None
      end
  | Close => if shutdown g then None else Some (mkGate (limiter g) true (conns g))
  end.

Fixpoint run (g : Gate) (es : list Event) : option Gate :=
  match es with
  | [] => Some g
  | e :: rest =>
      match HandleConnection_step g e with
      | Some g' => run g' rest
      | None => None
      end
  end.

Definition serving (c : Conn) : nat :=
  match c with Serving => 1 | _ => 0 end.

Definition servingCount (cs : list Conn) : nat := sum_list_with serving cs.

(** The select cases of request [c] that can proceed. *)
Definition ready (g : Gate) (c : nat) : list Event :=
  match conns g !! c with
  | Some Waiting =>
      (if shutdown g then [TakeShutdown c] else []) ++
      (if (limiter g <? MaxSimultaneousClients)%nat then [TakeSlot c] else [])
  | _ => []
  end.

(** Shutdown first, then a request arrives while slots are free. *)
Definition lateArrival : list Event := [Close; Arrive].
Definition atLateArrival : Gate := mkGate 0 true [Waiting].

End Gate.

(** * The variant without cancellation

    The second [package main] of [main.go] (from line 261 on): [QueryUrls]
    starts one goroutine per task, [Handle] collects every result, failed or
    not, and the gate ([ClientCheck]) has no shutdown case. *)

Module NoCancel.

(** [Handle] after validation: at the test of its loop with counter [i], or
    returned (nothing blocks between the end of the loop and the return). *)
Inductive HandlerPc : Type :=
| HLoop (i : nat)
| HReturned.

(** The goroutine of lines 322-328: sending the URLs still in [rest] to
    [tasks], or returned (the deferred [close(tasks)] has run). *)
Inductive FeederPc : Type :=
| FFeed (rest : list string)
| FDone.

(** [QueryUrls]: in [for task := range tasks], at [wg.Wait()], or returned. *)
Inductive DispatcherPc : Type :=
| DRange
| DWait
| DReturned.

(** The goroutine of lines 335-340: about to call [RequestUrl(task)], about
    to send its result on [out], or returned. *)
Inductive WorkerPc : Type :=
| WFetch (task : string)
| WSend (r : UrlResult)
| WExited.

Record State : Type := mkState {
  urls : Urls;
  results : ResultToUser;
  hpc : HandlerPc;  (* where [Handle] stands *)
  written : option HttpResponse;  (* what [Handle] has written to [rw] *)
  feeder : FeederPc;  (* the goroutine that fills [tasks] *)
  dpc : DispatcherPc;  (* where [QueryUrls] stands *)
  workers : list WorkerPc;  (* the goroutines of [QueryUrls], one per task *)
  tasks : list string;  (* buffer of the channel [tasks] *)
  tasksClosed : bool;
  out : list UrlResult;  (* buffer of the channel [out] *)
  wg : nat;  (* counter of [wg] *)
  notify : CloseNotify;  (* the channel of [CloseNotify] and its listener *)
  drawn : list string;  (* history: tasks received from [tasks] *)
  fetched : list UrlResult;  (* history: what the calls of [RequestUrl] returned *)
  emitted : list UrlResult;  (* history: what was sent on [out] *)
  received : list UrlResult  (* history: what [Handle] received from [out] *)
}.

Definition set_results (v : ResultToUser) (s : State) : State :=
  mkState (urls s) v (hpc s) (written s) (feeder s) (dpc s) (workers s)
    (tasks s) (tasksClosed s) (out s) (wg s) (notify s) (drawn s) (fetched s)
    (emitted s) (received s).

Definition set_hpc (v : HandlerPc) (s : State) : State :=
  mkState (urls s) (results s) v (written s) (feeder s) (dpc s) (workers s)
    (tasks s) (tasksClosed s) (out s) (wg s) (notify s) (drawn s) (fetched s)
    (emitted s) (received s).

Definition set_written (v : option HttpResponse) (s : State) : State :=
  mkState (urls s) (results s) (hpc s) v (feeder s) (dpc s) (workers s)
    (tasks s) (tasksClosed s) (out s) (wg s) (notify s) (drawn s) (fetched s)
    (emitted s) (received s).

Definition set_feeder (v : FeederPc) (s : State) : State :=
  mkState (urls s) (results s) (hpc s) (written s) v (dpc s) (workers s)
    (tasks s) (tasksClosed s) (out s) (wg s) (notify s) (drawn s) (fetched s)
    (emitted s) (received s).

Definition set_dpc (v : DispatcherPc) (s : State) : State :=
  mkState (urls s) (results s) (hpc s) (written s) (feeder s) v (workers s)
    (tasks s) (tasksClosed s) (out s) (wg s) (notify s) (drawn s) (fetched s)
    (emitted s) (received s).

Definition set_workers (v : list WorkerPc) (s : State) : State :=
  mkState (urls s) (results s) (hpc s) (written s) (feeder s) (dpc s) v
    (tasks s) (tasksClosed s) (out s) (wg s) (notify s) (drawn s) (fetched s)
    (emitted s) (received s).

Definition set_tasks (v : list string) (s : State) : State :=
  mkState (urls s) (results s) (hpc s) (written s) (feeder s) (dpc s)
    (workers s) v (tasksClosed s) (out s) (wg s) (notify s) (drawn s)
    (fetched s) (emitted s) (received s).

Definition set_tasksClosed (v : bool) (s : State) : State :=
  mkState (urls s) (results s) (hpc s) (written s) (feeder s) (dpc s)
    (workers s) (tasks s) v (out s) (wg s) (notify s) (drawn s) (fetched s)
    (emitted s) (received s).

Definition set_out (v : list UrlResult) (s : State) : State :=
  mkState (urls s) (results s) (hpc s) (written s) (feeder s) (dpc s)
    (workers s) (tasks s) (tasksClosed s) v (wg s) (notify s) (drawn s)
    (fetched s) (emitted s) (received s).

Definition set_wg (v : nat) (s : State) : State :=
  mkState (urls s) (results s) (hpc s) (written s) (feeder s) (dpc s)
    (workers s) (tasks s) (tasksClosed s) (out s) v (notify s) (drawn s)
    (fetched s) (emitted s) (received s).

Definition set_notify (v : CloseNotify) (s : State) : State :=
  mkState (urls s) (results s) (hpc s) (written s) (feeder s) (dpc s)
    (workers s) (tasks s) (tasksClosed s) (out s) (wg s) v (drawn s)
    (fetched s) (emitted s) (received s).

Definition set_drawn (v : list string) (s : State) : State :=
  mkState (urls s) (results s) (hpc s) (written s) (feeder s) (dpc s)
    (workers s) (tasks s) (tasksClosed s) (out s) (wg s) (notify s) v
    (fetched s) (emitted s) (received s).

Definition set_fetched (v : list UrlResult) (s : State) : State :=
  mkState (urls s) (results s) (hpc s) (written s) (feeder s) (dpc s)
    (workers s) (tasks s) (tasksClosed s) (out s) (wg s) (notify s) (drawn s)
    v (emitted s) (received s).

Definition set_emitted (v : list UrlResult) (s : State) : State :=
  mkState (urls s) (results s) (hpc s) (written s) (feeder s) (dpc s)
    (workers s) (tasks s) (tasksClosed s) (out s) (wg s) (notify s) (drawn s)
    (fetched s) v (received s).

Definition set_received (v : list UrlResult) (s : State) : State :=
  mkState (urls s) (results s) (hpc s) (written s) (feeder s) (dpc s)
    (workers s) (tasks s) (tasksClosed s) (out s) (wg s) (notify s) (drawn s)
    (fetched s) (emitted s) v.

(** Lines 380-384: [Handle] has launched [QueryUrls], which has launched the
    goroutine that fills [tasks]. *)
Definition start (request : Urls) : State :=
  mkState request emptyResult (HLoop 0) None (FFeed request) DRange [] [] false []
    0 CNOpen [] [] [] [].

Inductive Action : Type :=
| Handler                                 (* Handle: its next statement *)
| Feeder                                  (* tasks <- url, or close(tasks) *)
| Dispatcher                              (* QueryUrls: its next statement *)
| WorkerFetch (w : nat) (o : GetOutcome)  (* worker w: RequestUrl(task) returns *)
| WorkerSend (w : nat)                    (* worker w: out <- UrlResult{...} *)
| ClientDisconnect                        (* the connection goes away *)
| Listener.                               (* lines 374-378: <-notify, then a print *)

(** Lines 397-405: the reply for [results]; nothing is written when
    [json.Marshal] fails. *)
Definition reply (r : ResultToUser) : option HttpResponse :=
  match json_Marshal r with
  | inr _ => None
  | inl res => Some (mkHttpResponse StatusOK "application/json"%string res)
  end.

(** Lines 387-395: the error of a failed result replaces the error kept so
    far, and the result is appended whether it failed or not. *)
Definition collect (results : ResultToUser) (res : UrlResult) : ResultToUser :=
  mkResultToUser
    (match error res with
     | Some e => e
     | None => Error results
     end)
    (Responses results ++ [res]).

(** [Handle], lines 386-405. *)
Definition Handle_step (s : State) : option State :=
  match hpc s with
  | HLoop i =>
      if (i <? List.length (urls s))%nat then
        match out s with
        | res :: rest =>
            Some (set_hpc (HLoop (S i))
                    (set_results (collect (results s) res)
                       (set_received (received s ++ [res]) (set_out rest s))))
        | [] => None
        end
      else Some (set_hpc HReturned (set_written (reply (results s)) s))
  | HReturned => None
  end.

(** The goroutine of lines 322-328; [tasks] holds
    [MaxSimultaneousUrlRequests] values. *)
Definition Feeder_step (s : State) : option State :=
  match feeder s with
  | FFeed (url :: rest) =>
      if (List.length (tasks s) <? MaxSimultaneousUrlRequests)%nat then
        Some (set_feeder (FFeed rest) (set_tasks (tasks s ++ [url]) s))
      else None
  | FFeed [] => Some (set_feeder FDone (set_tasksClosed true s))
  | FDone => None
  end.

(** [QueryUrls], lines 330-343: for every task received, [wg.Add(1)] and a
    new goroutine; after the channel is closed and empty, [wg.Wait()]. *)
Definition QueryUrls_step (s : State) : option State :=
  match dpc s with
  | DRange =>
      match tasks s with
      | task :: rest =>
          Some (set_workers (workers s ++ [WFetch task])
                 (set_wg (S (wg s))
                    (set_drawn (drawn s ++ [task]) (set_tasks rest s))))
      | [] => if tasksClosed s then Some (set_dpc DWait s) else None
      end
  | DWait => if (wg s =? 0)%nat then Some (set_dpc DReturned s) else None
  | DReturned => None
  end.

(** The goroutine of lines 335-340; [out] holds [len(urls)] values, and the
    deferred [wg.Done()] runs when the goroutine returns. *)
Definition worker_step (s : State) (a : Action) : option State :=
  match a with
  | WorkerFetch w o =>
      match workers s !! w with
      | Some (WFetch task) =>
          let '(result, err) := RequestUrl (fun _ => o) task in
          let r := mkUrlResult task result err in
          Some (set_workers (<[w := WSend r]> (workers s))
                 (set_fetched (fetched s ++ [r]) s))
      | _ => None
      end
  | WorkerSend w =>
      match workers s !! w with
      | Some (WSend r) =>
          if (List.length (out s) <? List.length (urls s))%nat then
            Some (set_workers (<[w := WExited]> (workers s))
                   (set_wg (pred (wg s))
                      (set_emitted (emitted s ++ [r]) (set_out (out s ++ [r]) s))))
          else None
      | _ => None
      end
  | _ => None
  end.

Definition step (s : State) (a : Action) : option State :=
  match a with
  | Handler => Handle_step s
  | Feeder => Feeder_step s
  | Dispatcher => QueryUrls_step s
  | WorkerFetch _ _ | WorkerSend _ => worker_step s a
  | ClientDisconnect =>
      match notify s with
      | CNOpen => Some (set_notify CNPending s)
      | _ => None
      end
  | Listener =>
      match notify s with
      | CNPending => Some (set_notify CNTaken s)
      | _ => None
      end
  end.

Fixpoint run (s : State) (sched : list Action) : option State :=
  match sched with
  | [] => Some s
  | a :: rest =>
      match step s a with
      | Some s' => run s' rest
      | None => None
      end
  end.

Definition taskOf (w : WorkerPc) : list string :=
  match w with WFetch task => [task] | _ => [] end.

Definition resultOf (w : WorkerPc) : list UrlResult :=
  match w with WSend r => [r] | _ => [] end.

Definition alive (w : WorkerPc) : nat :=
  match w with WExited => 0 | _ => 1 end.

Definition inflightTasks (ws : list WorkerPc) : list string := ws ≫= taskOf.
Definition inflightResults (ws : list WorkerPc) : list UrlResult := ws ≫= resultOf.

Definition pendingFeed (s : State) : list string :=
  match feeder s with
  | FFeed rest => rest
  | FDone => []
  end.

(** The error that [Handle] ends with after collecting [l]: the text of the
    last failed result, or the empty string. *)
Definition lastError (l : list UrlResult) : string :=
  foldl (fun e res => match error res with Some t => t | None => e end) EmptyString l.

Record FlowInv (s : State) : Prop := mkFlowInv {
  flow_tasks : drawn s ++ tasks s ++ pendingFeed s = urls s;
  flow_fetch : drawn s ≡ₚ (Url <$> fetched s) ++ inflightTasks (workers s);
  flow_send : fetched s ≡ₚ emitted s ++ inflightResults (workers s);
  flow_out : emitted s = received s ++ out s
}.

Record HandlerInv (s : State) : Prop := mkHandlerInv {
  h_kept : results s = mkResultToUser (lastError (received s)) (received s);
  h_loop : forall i, hpc s = HLoop i ->
    length (received s) = i /\ i <= length (urls s) /\ written s = None;
  h_returned : hpc s = HReturned ->
    length (received s) = length (urls s) /\ written s = reply (results s)
}.

Record JoinInv (s : State) : Prop := mkJoinInv {
  j_wg : wg s = sum_list_with alive (workers s);
  j_closed : tasksClosed s = true <-> feeder s = FDone;
  j_ranged : dpc s <> DRange -> tasks s = [] /\ feeder s = FDone
}.

Definition weight (w : WorkerPc) : nat :=
  match w with
  | WFetch _ => 2
  | WSend _ => 1
  | WExited => 0
  end.

Definition fuel (s : State) : nat :=
  match hpc s with HLoop i => (length (urls s) - i) + 1 | HReturned => 0 end +
  match feeder s with FFeed rest => 4 * length rest + 1 | FDone => 0 end +
  match dpc s with DRange => 2 | DWait => 1 | DReturned => 0 end +
  match notify s with CNOpen => 2 | CNPending => 1 | CNTaken => 0 end +
  3 * length (tasks s) + sum_list_with weight (workers s).

(** A sample run over [urlA] and [urlB]: [urlB] times out and comes back
    first, the client goes away, [urlA] succeeds. *)
Definition sampleSched : list Action :=
  [Feeder; Feeder; Feeder; Dispatcher; Dispatcher; Dispatcher;
   WorkerFetch 1 timedOut; WorkerSend 1; ClientDisconnect; Listener;
   WorkerFetch 0 okA; WorkerSend 0; Dispatcher; Handler; Handler; Handler].

Definition afterSample : State :=
  Eval vm_compute in
    match run (start [urlA; urlB]) sampleSched with
    | Some s => s
    | None => start [urlA; urlB]
    end.

(** The schedule that feeds and starts one URL after the other. *)
Definition spawnAll (request : Urls) : list Action :=
  request ≫= (fun _ => [Feeder; Dispatcher]).

(** ** [ClientCheck] *)

Inductive Conn : Type :=
| Waiting
| Serving
| Through (panicked : bool).

Record Gate : Type := mkGate {
  limiter : nat;
  conns : list Conn
}.

Inductive Event : Type :=
| Arrive
| TakeSlot (c : nat)                  (* limiter <- struct{}{} *)
| Leave (c : nat) (panicked : bool).  (* h.ServeHTTP ends; the defer runs *)

Definition ClientCheck_step (g : Gate) (e : Event) : option Gate :=
  match e with
  | Arrive => Some (mkGate (limiter g) (conns g ++ [Waiting]))
  | TakeSlot c =>
      match conns g !! c with
      | Some Waiting =>
          if (limiter g <? MaxSimultaneousClients)%nat then
            Some (mkGate (S (limiter g)) (<[c := Serving]> (conns g)))
          else None
      | _ => None
      end
  | Leave c panicked =>
      match conns g !! c with
      | Some Serving =>
          if (0 <? limiter g)%nat then
            Some (mkGate (pred (limiter g)) (<[c := Through panicked]> (conns g)))
          else None
      | _ => None
      end
  end.

Fixpoint serve (g : Gate) (es : list Event) : option Gate :=
  match es with
  | [] => Some g
  | e :: rest =>
      match ClientCheck_step g e with
      | Some g' => serve g' rest
      | None => None
      end
  end.

Definition serving (c : Conn) : nat :=
  match c with Serving => 1 | _ => 0 end.

End NoCancel.
(** * Proofs *)

(** ** The worker pool under an update *)

Section PoolUpdate.
Context {B : Type} (f : WorkerPc -> list B).

Lemma bind_insert_split (ws : list WorkerPc) (w : nat) (x y : WorkerPc) :
  ws !! w = Some x ->
  exists rest, ws ≫= f ≡ₚ f x ++ rest /\ <[w := y]> ws ≫= f ≡ₚ f y ++ rest.
Proof.
  intros Hw.
  exists ((take w ws ≫= f) ++ (drop (S w) ws ≫= f)).
  assert (Hlt : w < length ws) by (eapply lookup_lt_Some; eauto).
  split.
  - rewrite <- (take_drop_middle ws w x Hw) at 1.
    rewrite bind_app, bind_cons. solve_Permutation.
  - rewrite (insert_take_drop ws w y Hlt).
    rewrite bind_app, bind_cons. solve_Permutation.
Qed.

End PoolUpdate.

Lemma aliveCount_insert (ws : list WorkerPc) (w : nat) (x y : WorkerPc) :
  ws !! w = Some x ->
  aliveCount (<[w := y]> ws) + alive x = aliveCount ws + alive y.
Proof.
  intros Hw. unfold aliveCount.
  assert (Hlt : w < length ws) by (eapply lookup_lt_Some; eauto).
  rewrite (insert_take_drop ws w y Hlt).
  rewrite <- (take_drop_middle ws w x Hw) at 3.
  rewrite !sum_list_with_app. simpl. lia.
Qed.

Lemma aliveCount_app (ws1 ws2 : list WorkerPc) :
  aliveCount (ws1 ++ ws2) = aliveCount ws1 + aliveCount ws2.
Proof. unfold aliveCount. by rewrite sum_list_with_app. Qed.

Lemma aliveCount_zero (ws : list WorkerPc) :
  aliveCount ws = 0 <-> Forall exited ws.
Proof.
  unfold aliveCount. induction ws as [|w ws IH]; simpl.
  - split; auto.
  - split.
    + intros H. destruct w; simpl in H; try lia. constructor; [done|]. apply IH. lia.
    + intros H. inversion H as [|? ? Hw Hws]; subst. rewrite Hw. simpl. by apply IH.
Qed.

Lemma inflight_exited (ws : list WorkerPc) :
  Forall exited ws ->
  inflightTasks ws = [] /\ inflightResults ws = [].
Proof.
  unfold inflightTasks, inflightResults.
  induction 1 as [|w ws Hw _ [IH1 IH2]]; [done|].
  rewrite Hw, !bind_cons. simpl. done.
Qed.

(** ** Stepping *)

Ltac step_cases H :=
  unfold step, Handle_step, QueryUrls_step, worker_step, workerExit, RequestUrl in H;
  repeat case_match; simplify_eq; simpl in *.

Lemma step_urls (s s' : State) (a : Action) :
  step s a = Some s' -> urls s' = urls s /\ workersCount s' = workersCount s.
Proof. intros H. destruct a; step_cases H; done. Qed.

Lemma run_app (s : State) (l1 l2 : list Action) :
  run s (l1 ++ l2) = match run s l1 with Some s1 => run s1 l2 | None => None end.
Proof.
  revert s. induction l1 as [|a l1 IH]; intros s; simpl; [done|].
  destruct (step s a); [apply IH | done].
Qed.

(** Induction over the states of a run. *)
Lemma run_invariant (P : State -> Prop) :
  (forall s a s', P s -> step s a = Some s' -> P s') ->
  forall sched s s', P s -> run s sched = Some s' -> P s'.
Proof.
  intros Hstep. induction sched as [|a sched IH]; intros s s' Hs Hrun; simpl in Hrun.
  - by simplify_eq.
  - destruct (step s a) as [s1|] eqn:E; [|done]. eauto.
Qed.

(** ** The invariants are kept by every step *)

Ltac pool_update :=
  match goal with
  | Hw : workers _ !! ?w = Some _ |- context [<[?w := ?y]> (workers _)] =>
      let R1 := fresh "R" in let R2 := fresh "R" in
      let H1' := fresh "HR" in let H2' := fresh "HR" in
      destruct (bind_insert_split taskOf _ _ _ y Hw) as (R1 & HRt & H1');
      destruct (bind_insert_split resultOf _ _ _ y Hw) as (R2 & HRr & H2');
      simpl in HRt, H1', HRr, H2';
      rewrite ?H1', ?H2'; clear H1' H2'
  end.

Ltac use_pc_eqs :=
  repeat match goal with
  | H : dpc _ = _ |- _ => rewrite H in *
  | H : hpc _ = _ |- _ => rewrite H in *
  | H : pipeline _ = _ |- _ => rewrite H in *
  | H : tasks _ = _ |- _ => rewrite H in *
  end.

Lemma FlowInv_step (s s' : State) (a : Action) :
  FlowInv s -> step s a = Some s' -> FlowInv s'.
Proof.
  intros HI H.
  destruct a; step_cases H; destruct HI as [A1 A2 A3 A4];
    unfold pendingFeed, inflightTasks, inflightResults in *.
  all: constructor; unfold pendingFeed, inflightTasks, inflightResults; simpl;
    use_pc_eqs; try done.
  all: rewrite ?bind_app, ?fmap_app; simpl; rewrite ?app_nil_r; try done.
  all: try (rewrite <- ?app_assoc; simpl; done).
  all: try (rewrite <- A1, <- ?app_assoc; simpl; done).
  all: try (rewrite A4, <- ?app_assoc; simpl; done).
  all: pool_update;
    match goal with
    | |- drawn _ ≡ₚ _ => rewrite A2, HRt
    | |- drawn _ ++ _ ≡ₚ _ => rewrite A2, HRt
    | |- fetched _ ≡ₚ _ => rewrite A3, HRr
    | |- fetched _ ++ _ ≡ₚ _ => rewrite A3, HRr
    end; simpl; solve_Permutation.
Qed.

Ltac use_hyps :=
  repeat match goal with
  | H : forall i0, HLoop ?i = HLoop i0 -> _ |- _ => specialize (H _ eq_refl)
  | H : ?x = ?v -> _, H' : ?x = ?v |- _ => specialize (H H')
  | H : ?a = ?a -> _ |- _ => specialize (H eq_refl)
  | H : _ /\ _ |- _ => destruct H
  end.

Ltac ltb_to_prop :=
  repeat match goal with
  | H : (_ <? _) = true |- _ => apply Nat.ltb_lt in H
  | H : (_ <? _) = false |- _ => apply Nat.ltb_ge in H
  | H : (_ =? _) = true |- _ => apply Nat.eqb_eq in H
  | H : (_ =? _) = false |- _ => apply Nat.eqb_neq in H
  end.

Lemma HandlerInv_step (s s' : State) (a : Action) :
  HandlerInv s -> step s a = Some s' -> HandlerInv s'.
Proof.
  intros HI H.
  destruct a; step_cases H; destruct HI as [B1 B2 B3 B4 B5 B6 B7 B8].
  all: constructor; simpl; use_pc_eqs; try done.
  all: intros; simplify_eq; ltb_to_prop; use_hyps; rewrite ?length_app; simpl;
    try (repeat split; (done || lia || congruence)).
  all: try match goal with
       | |- written _ = None => apply B5; congruence
       | |- length (received _) = length (urls _) =>
           first [ lia | apply B3; first [ done | intros; congruence ] ]
       | |- _ = if needToSend ?s then _ else _ =>
           first [ rewrite B6 by congruence; done
                 | destruct (needToSend s); congruence ]
       end.
  - split; [done|]. exists (received s), u. done.
  - repeat split; try done. { congruence. } apply Forall_app; split; [done|].
    constructor; [done | constructor].
  - rewrite H2. apply B5. congruence.
Qed.

Ltac pool_alive :=
  match goal with
  | Hw : workers _ !! ?w = Some _ |- context [<[?w := ?y]> (workers _)] =>
      let Ha := fresh "Ha" in
      pose proof (aliveCount_insert _ _ _ y Hw) as Ha; simpl in Ha
  end.

Lemma JoinInv_step (s s' : State) (a : Action) :
  JoinInv s -> step s a = Some s' -> JoinInv s'.
Proof.
  intros HI H.
  destruct a; step_cases H; destruct HI as [J1 J2 J3 J4 J5 J6 J7].
  all: constructor; simpl; use_pc_eqs; try done.
  all: intros; simplify_eq; ltb_to_prop;
    rewrite ?length_app, ?length_insert, ?aliveCount_app; simpl; try lia.
  all: try (pool_alive; first [ lia | rewrite J5 by done; lia ]).
  - specialize (J3 _ eq_refl). lia.
  - rewrite J5 by done. done.
  - rewrite J5 by done. done.
Qed.

Lemma Inv_step (s s' : State) (a : Action) :
  Inv s -> step s a = Some s' -> Inv s'.
Proof.
  intros (HF & HH & HJ) H.
  split; [|split]; eauto using FlowInv_step, HandlerInv_step, JoinInv_step.
Qed.

Lemma Inv_start (request : Urls) : Inv (start request).
Proof.
  split; [|split]; constructor; simpl; try done.
  all: try lia.
  - intros i [= <-]. repeat split; lia.
  - intros _ Hi. by destruct (Hi 0).
  - intros i [= <-]. lia.
Qed.

Lemma Inv_refused (resp : HttpResponse) : Inv (refused resp).
Proof.
  split; [|split]; constructor; simpl; done.
Qed.

Lemma Inv_begin (r : Request) : Inv (Handle_begin r).
Proof.
  unfold Handle_begin. destruct (Handle_validate r); auto using Inv_start, Inv_refused.
Qed.

Lemma Inv_run_from (s0 : State) (sched : list Action) (s : State) :
  Inv s0 -> run s0 sched = Some s -> Inv s.
Proof.
  apply (run_invariant Inv). intros s1 a s2. apply Inv_step.
Qed.

Lemma Inv_run (r : Request) (sched : list Action) (s : State) :
  run (Handle_begin r) sched = Some s -> Inv s.
Proof. apply Inv_run_from, Inv_begin. Qed.

Lemma run_urls (s s' : State) (sched : list Action) :
  run s sched = Some s' -> urls s' = urls s /\ workersCount s' = workersCount s.
Proof.
  revert s. induction sched as [|a sched IH]; intros s H; simpl in H.
  - by simplify_eq.
  - destruct (step s a) as [s1|] eqn:E; [|done].
    destruct (step_urls _ _ _ E) as [<- <-]. auto.
Qed.

Lemma workersCountFor_min (request : Urls) :
  workersCountFor request = Nat.min MaxSimultaneousUrlRequests (length request).
Proof.
  unfold workersCountFor.
  destruct (length request <? MaxSimultaneousUrlRequests) eqn:E; ltb_to_prop; lia.
Qed.

(** Lengths along the flow. *)
Lemma flow_lengths (s : State) :
  FlowInv s ->
  length (urls s) = length (drawn s) + length (tasks s) + length (pendingFeed s) /\
  length (drawn s) = length (fetched s) + length (inflightTasks (workers s)) /\
  length (fetched s) = length (emitted s) + length (inflightResults (workers s)) /\
  length (emitted s) = length (received s) + length (pipeline s).
Proof.
  intros [A1 A2 A3 A4].
  apply (f_equal length) in A1. apply Permutation_length in A2, A3.
  apply (f_equal length) in A4.
  rewrite !length_app in *. rewrite length_fmap in A2. lia.
Qed.

(** Once [Handle] has returned, [QueryUrls] has returned (or was never
    started) and every worker has returned. *)
Lemma returned_joined (s : State) :
  JoinInv s -> hpc s = HReturned ->
  (dpc s = DReturned \/ dpc s = DIdle) /\ Forall exited (workers s).
Proof.
  intros [J1 J2 J3 J4 J5 J6 J7] Hret.
  specialize (J6 Hret). rewrite J6 in J4.
  destruct (dpc s) eqn:E; try discriminate.
  - split; [by right|]. destruct (workers s); [constructor | discriminate].
  - split; [by left|]. apply aliveCount_zero. rewrite <- J1. by apply J5.
Qed.

(** When the loop of [Handle] has run to its end, everything that was sent
    to the URLs has come back and has been kept. *)
Lemma collected_all (s : State) :
  Inv s -> quit s = false -> (forall i, hpc s <> HLoop i) ->
  Responses (results s) = received s /\
  Error (results s) = EmptyString /\
  Forall succeeded (received s) /\
  length (received s) = length (urls s) /\
  fetched s ≡ₚ received s /\
  Url <$> received s ≡ₚ urls s.
Proof.
  intros (HF & HH & HJ) Hq Hpc.
  destruct (h_open _ HH Hq) as (_ & He & Hr & Hs).
  pose proof (h_full _ HH Hq Hpc) as Hlen.
  destruct (flow_lengths _ HF) as (L1 & L2 & L3 & L4).
  destruct HF as [A1 A2 A3 A4].
  assert (pipeline s = []) as Hp by (apply length_zero_iff_nil; lia).
  assert (inflightResults (workers s) = []) as Hir by (apply length_zero_iff_nil; lia).
  assert (inflightTasks (workers s) = []) as Hit by (apply length_zero_iff_nil; lia).
  assert (tasks s = []) as Ht by (apply length_zero_iff_nil; lia).
  assert (pendingFeed s = []) as Hf by (apply length_zero_iff_nil; lia).
  rewrite Hp, app_nil_r in A4. rewrite Hir, app_nil_r, A4 in A3.
  rewrite Hit, app_nil_r in A2. rewrite Ht, Hf, !app_nil_r in A1.
  repeat split; try done.
  rewrite <- A1, A2. by rewrite A3.
Qed.

(** ** [Handle] always returns *)

Lemma sum_list_with_insert {A : Type} (f : A -> nat) (l : list A) (i : nat) (x y : A) :
  l !! i = Some x ->
  sum_list_with f (<[i := y]> l) + f x = sum_list_with f l + f y.
Proof.
  intros Hi.
  assert (Hlt : i < length l) by (eapply lookup_lt_Some; eauto).
  rewrite (insert_take_drop l i y Hlt).
  rewrite <- (take_drop_middle l i x Hi) at 3.
  rewrite !sum_list_with_app. simpl. lia.
Qed.

Ltac pool_weight :=
  match goal with
  | Hw : workers _ !! ?w = Some _ |- context [<[?w := ?y]> (workers _)] =>
      let Ha := fresh "Ha" in
      pose proof (sum_list_with_insert weight _ _ _ y Hw) as Ha; simpl in Ha
  end.

(** Every step, of a goroutine or of the client, uses up fuel: no run is
    longer than the fuel of its first state. *)
Lemma step_fuel (s s' : State) (a : Action) :
  step s a = Some s' -> fuel s' < fuel s.
Proof.
  intros H.
  destruct a; step_cases H;
    unfold fuel, handlerFuel, dispatcherFuel, clientFuel, pendingFeed; simpl;
    use_pc_eqs; ltb_to_prop;
    try match goal with H : connectionClose _ = _ |- _ => rewrite H end;
    rewrite ?sum_list_with_app, ?length_app; simpl; try lia.
  all: pool_weight; lia.
Qed.

Lemma run_fuel (sched : list Action) (s s' : State) :
  run s sched = Some s' -> length sched + fuel s' <= fuel s.
Proof.
  revert s. induction sched as [|a sched IH]; intros s H; simpl in H.
  - simplify_eq. simpl. lia.
  - destruct (step s a) as [s1|] eqn:E; [|done].
    apply step_fuel in E. apply IH in H. simpl. lia.
Qed.

Lemma elem_of_insert_inv {A : Type} (l : list A) (i : nat) (x y : A) :
  x ∈ <[i := y]> l -> x = y \/ x ∈ l.
Proof.
  intros Hx. apply list_elem_of_lookup in Hx as [j Hj].
  apply list_lookup_insert_Some in Hj as [(_ & -> & _) | (_ & Hj)]; [by left|].
  right. by eapply list_elem_of_lookup_2.
Qed.

Lemma CloseInv_step (s s' : State) (a : Action) :
  CloseInv s -> step s a = Some s' -> CloseInv s'.
Proof.
  intros HI H.
  destruct a; step_cases H; destruct HI as [C1 C2 C3].
  all: constructor; simpl; use_pc_eqs; try done.
  all: try (intros Hq Hin; apply elem_of_insert_inv in Hin as [Hin | Hin];
            [done || discriminate | ]).
  all: try (intros Hq Hin; apply elem_of_app in Hin as [Hin | Hin];
            [by apply C2 | by apply list_elem_of_singleton in Hin]).
  all: try (intros; congruence).
  all: try (intuition congruence).
Qed.

Lemma CloseInv_begin (r : Request) : CloseInv (Handle_begin r).
Proof.
  unfold Handle_begin. destruct (Handle_validate r); constructor; simpl; try done.
  all: try (intros _ Hin; by apply elem_of_nil in Hin).
  all: split; [done | intros [? | ?]; done].
Qed.

Lemma CloseInv_run (r : Request) (sched : list Action) (s : State) :
  run (Handle_begin r) sched = Some s -> CloseInv s.
Proof.
  apply (run_invariant CloseInv); [|apply CloseInv_begin].
  intros s0 a s1. apply CloseInv_step.
Qed.

Lemma alive_worker (ws : list WorkerPc) :
  aliveCount ws <> 0 -> exists w x, ws !! w = Some x /\ x <> WExited.
Proof.
  unfold aliveCount. induction ws as [|x ws IH]; simpl; [done|].
  intros H. destruct (decide (alive x = 0)) as [Hx|Hx].
  - destruct IH as (w & y & Hw & Hy); [lia|]. by exists (S w), y.
  - exists 0, x. split; [done|]. intros ->. done.
Qed.

Lemma holds_result (ws : list WorkerPc) (w : nat) (r : UrlResult) :
  ws !! w = Some (WSend r) -> 0 < length (inflightResults ws).
Proof.
  intros Hw. destruct (bind_insert_split resultOf ws w _ WSelect Hw) as (R & HR & _).
  unfold inflightResults. rewrite HR. simpl. lia.
Qed.

(** No deadlock: as long as [Handle] has not returned, some goroutine of the
    request can take a step. *)
Lemma progress (r : Request) (sched : list Action) (s : State) :
  run (Handle_begin r) sched = Some s ->
  hpc s <> HReturned ->
  exists a s', a <> ClientDisconnect /\ step s a = Some s'.
Proof.
  intros Hrun Hpc.
  destruct (Inv_run _ _ _ Hrun) as (HF & HH & HJ).
  pose proof (CloseInv_run _ _ _ Hrun) as HC.
  destruct (flow_lengths _ HF) as (L1 & L2 & L3 & L4).
  destruct (dpc s) eqn:Hd.
  - by destruct Hpc; apply (c_refused _ HC).
  - exists Dispatcher. unfold step, QueryUrls_step. rewrite Hd.
    destruct (i <? workersCount s); by eexists.
  - exists Dispatcher. unfold step, QueryUrls_step. rewrite Hd.
    destruct rest as [|url rest]; [by eexists|].
    unfold pendingFeed in L1. rewrite Hd in L1. simpl in L1.
    assert (length (tasks s) < length (urls s)) as Hlt by lia.
    apply Nat.ltb_lt in Hlt. rewrite Hlt. by eexists.
  - destruct (decide (wg s = 0)) as [Hwg|Hwg].
    { exists Dispatcher. unfold step, QueryUrls_step. rewrite Hd, Hwg. by eexists. }
    rewrite (j_wg _ HJ) in Hwg.
    destruct (alive_worker _ Hwg) as (w & x & Hw & Hx).
    destruct x as [|task|res|]; [| | |done].
    + exists (WorkerTask w). unfold step, worker_step. rewrite Hw.
      destruct (tasks s); [|by eexists].
      assert (tasksClosed s = true) as -> by (apply (c_closed _ HC); by left).
      by eexists.
    + exists (WorkerFetch w timedOut). unfold step, worker_step. rewrite Hw.
      simpl. by eexists.
    + exists (WorkerSend w). unfold step, worker_step. rewrite Hw.
      pose proof (holds_result _ _ _ Hw) as Hpos.
      assert (length (pipeline s) < length (urls s)) as Hlt by lia.
      apply Nat.ltb_lt in Hlt. rewrite Hlt. by eexists.
  - pose proof (j_wait _ HJ) as Hwait. rewrite Hd in Hwait.
    destruct (hpc s) as [i| |] eqn:Hh; [| |done].
    + destruct (h_loop _ HH i Hh) as (Hq & Hrec & Hle).
      destruct (pipeline s) as [|res rest] eqn:Hp.
      * exists HandlerAdvance. unfold step, Handle_step. rewrite Hh.
        destruct (i <? length (urls s)) eqn:Hi; [|by eexists]. exfalso.
        apply Nat.ltb_lt in Hi.
        assert (Forall exited (workers s)) as Hex.
        { apply aliveCount_zero. rewrite <- (j_wg _ HJ). by apply (j_joined _ HJ). }
        destruct (inflight_exited _ Hex) as [Ht Hr]. rewrite Ht, Hr in *.
        pose proof (j_pool _ HJ) as Hn. rewrite Hd, (j_count _ HJ) in Hn.
        rewrite workersCountFor_min in Hn. unfold MaxSimultaneousUrlRequests in Hn.
        assert (WExited ∈ workers s) as Hin.
        { revert Hn Hex. destruct (workers s) as [|x ws]; intros Hn Hex.
          - change (length (@nil WorkerPc)) with 0 in Hn. lia.
          - inversion Hex as [|? ? Hx _]; subst. rewrite Hx. by left. }
        destruct (c_exited _ HC Hq Hin) as [Htasks _].
        unfold pendingFeed in L1. rewrite Hd, Htasks in L1. simpl in *. lia.
      * exists HandlerResult. unfold step, Handle_step. rewrite Hh, Hp.
        destruct (i <? length (urls s)) eqn:Hi.
        { destruct (error res); by eexists. }
        exfalso. apply Nat.ltb_ge in Hi. simpl in L4. lia.
    + exists HandlerAdvance. unfold step, Handle_step. rewrite Hh, Hwait.
      by eexists.
Qed.

(** From every state of a run, the goroutines alone (the client doing
    nothing more) bring [Handle] to its return; with [run_fuel], every run
    that cannot be continued has [Handle] returned. *)
Lemma Handle_returns (r : Request) (sched : list Action) (s : State) :
  run (Handle_begin r) sched = Some s ->
  exists more s', run s more = Some s' /\ hpc s' = HReturned /\
                  ClientDisconnect ∉ more.
Proof.
  remember (fuel s) as n eqn:Hn. revert sched s Hn.
  induction n as [n IH] using lt_wf_ind. intros sched s -> Hrun.
  assert (hpc s = HReturned \/ hpc s <> HReturned) as [Hret|Hpc].
  { destruct (hpc s); [by right | by right | by left]. }
  { exists [], s. split; [done|]. split; [done|]. apply not_elem_of_nil. }
  destruct (progress _ _ _ Hrun Hpc) as (a & s1 & Ha & Hstep).
  assert (run (Handle_begin r) (sched ++ [a]) = Some s1) as Hrun1.
  { rewrite run_app, Hrun. simpl. by rewrite Hstep. }
  destruct (IH (fuel s1) (step_fuel _ _ _ Hstep) (sched ++ [a]) s1 eq_refl Hrun1)
    as (more & s' & Hmore & Hret & Hnc).
  exists (a :: more), s'. split; [simpl; by rewrite Hstep|]. split; [done|].
  apply not_elem_of_cons. done.
Qed.

(** ** What [Handle] leaves behind when it returns *)

Lemma launched_step (s s' : State) (a : Action) :
  dpc s <> DIdle -> step s a = Some s' -> dpc s' <> DIdle.
Proof. intros Hd H. destruct a; step_cases H; congruence. Qed.

Lemma launched_run (request : Urls) (sched : list Action) (s : State) :
  run (start request) sched = Some s -> dpc s <> DIdle.
Proof.
  apply (run_invariant (fun s => dpc s <> DIdle)); [|done].
  intros s0 a s1. apply launched_step.
Qed.

Lemma accepted_begin (r : Request) (request : Urls) :
  Handle_validate r = inr request -> Handle_begin r = start request.
Proof. unfold Handle_begin. by intros ->. Qed.

Lemma received_fetched (s : State) (r : UrlResult) :
  FlowInv s -> r ∈ received s -> r ∈ fetched s /\ Url r ∈ urls s.
Proof.
  intros [A1 A2 A3 A4] Hr.
  assert (r ∈ fetched s) as Hf.
  { rewrite A3, A4. set_solver. }
  split; [done|].
  rewrite <- A1, A2. apply elem_of_app; left. apply elem_of_app; left.
  by apply list_elem_of_fmap_2.
Qed.

(** The two ways in which [Handle] returns with [needToSend] still set. *)
Lemma returned_outcome (r : Request) (request : Urls) (sched : list Action) (s : State) :
  Handle_validate r = inr request ->
  run (Handle_begin r) sched = Some s ->
  hpc s = HReturned -> needToSend s = true ->
  written s = Some (reply (results s)) /\
  ((Error (results s) = EmptyString /\ Responses (results s) = received s /\
    Forall succeeded (fetched s) /\ fetched s ≡ₚ received s /\
    Url <$> received s ≡ₚ request)
   \/
   (Responses (results s) = [] /\
    exists pre r0, received s = pre ++ [r0] /\ Forall succeeded pre /\
      error r0 = Some (Error (results s)) /\ r0 ∈ fetched s /\ Url r0 ∈ request)).
Proof.
  intros Hv Hrun Hret Hsend.
  pose proof (Inv_run _ _ _ Hrun) as HI.
  rewrite (accepted_begin _ _ Hv) in Hrun.
  pose proof (launched_run _ _ _ Hrun) as Hd.
  destruct (run_urls _ _ _ Hrun) as [Hu _]. simpl in Hu.
  destruct HI as (HF & HH & HJ).
  split.
  { rewrite (h_reply _ HH Hret Hd), Hsend. done. }
  destruct (quit s) eqn:Hq.
  - right. destruct (h_failed _ HH Hq Hsend) as (Hnil & pre & r0 & Hrec & Hpre & Herr).
    split; [done|]. exists pre, r0. repeat split; try done.
    all: rewrite <- ?Hu; eapply received_fetched; eauto; rewrite Hrec; set_solver.
  - left.
    assert (forall i, hpc s <> HLoop i) as Hpc by (intros i; congruence).
    destruct (collected_all s (conj HF (conj HH HJ)) Hq Hpc)
      as (Hr & He & Hs & _ & Hperm & Hurls).
    repeat split; try done.
    + by rewrite Hperm.
    + by rewrite <- Hu.
Qed.

(** * The properties of the specification *)

Lemma validate_accepts (r : Request) (request : Urls) :
  Method r = MethodPost -> Body r = BodyDecoded request ->
  length request <= MaxUrlCount ->
  Handle_validate r = inr request.
Proof.
  intros Hm Hb Hlen. unfold Handle_validate. rewrite Hm, Hb. simpl.
  destruct (MaxUrlCount <? length request) eqn:E; ltb_to_prop; [lia | done].
Qed.

(** ** Joining *)

(** C7: in every state of every run of [Handle] (whatever the outcomes of
    the fetches and whether or not the client goes away), if [QueryUrls] has
    returned then it has spawned all its workers and each of them has
    returned, and if [Handle] has returned then [QueryUrls] has returned (or
    was never launched, for a refused request) and no worker is left. *)
Theorem handler_returns_after_join (r : Request) (sched : list Action) (s : State) :
  run (Handle_begin r) sched = Some s ->
  (dpc s = DReturned ->
     length (workers s) = workersCount s /\ Forall exited (workers s)) /\
  (hpc s = HReturned ->
     (dpc s = DReturned \/ dpc s = DIdle) /\ Forall exited (workers s)).
Proof.
  intros Hrun. destruct (Inv_run _ _ _ Hrun) as (_ & _ & HJ). split.
  - intros Hd. split.
    + rewrite (j_pool _ HJ), Hd. done.
    + apply aliveCount_zero. rewrite <- (j_wg _ HJ). by apply (j_joined _ HJ).
  - intros Hret. by apply returned_joined.
Qed.

Lemma handler_returns_after_join_witness :
  run (Handle_begin postAB) schedGoneB = Some afterGoneB /\
  hpc afterGoneB = HReturned /\
  dpc afterGoneB = DReturned /\
  Forall exited (workers afterGoneB).
Proof.
  assert (run (Handle_begin postAB) schedGoneB = Some afterGoneB) as Hrun
    by reflexivity.
  destruct (handler_returns_after_join postAB schedGoneB afterGoneB Hrun) as [_ H].
  destruct (H eq_refl) as [_ Hw].
  split; [exact Hrun|]. split; [reflexivity|]. split; [reflexivity | exact Hw].
Defined.

(** ** The worker pool *)

(** C4: when [Handle] launches [QueryUrls] on a URL list, the pool has
    min(4, number of URLs) workers once the spawning loop is over (and never
    more); the tasks drawn by the workers are, in order, the front of the URL
    list, the rest being still in [tasks] or not yet sent to it; [RequestUrl]
    has been called once for every task drawn, except for the tasks that
    workers hold and have not fetched yet; and one result has been sent on
    [out] for every call, except for the results that workers hold and have
    not sent yet.  When [QueryUrls] has returned there are no exceptions. *)
Theorem pool_size_and_one_result_per_task
    (request : Urls) (sched : list Action) (s : State) :
  request <> [] ->
  run (start request) sched = Some s ->
  workersCount s = Nat.min MaxSimultaneousUrlRequests (length request) /\
  length (workers s) <= workersCount s /\
  ((forall i, dpc s <> DSpawn i) -> length (workers s) = workersCount s) /\
  drawn s ++ tasks s ++ pendingFeed s = request /\
  drawn s ≡ₚ (Url <$> fetched s) ++ inflightTasks (workers s) /\
  fetched s ≡ₚ emitted s ++ inflightResults (workers s) /\
  (dpc s = DReturned -> drawn s ≡ₚ Url <$> fetched s /\ fetched s ≡ₚ emitted s).
Proof.
  intros _ Hrun.
  destruct (Inv_run_from _ _ _ (Inv_start request) Hrun) as (HF & HH & HJ).
  destruct (run_urls _ _ _ Hrun) as [Hu Hc]. simpl in Hu, Hc.
  pose proof (launched_run _ _ _ Hrun) as Hd.
  pose proof (j_pool _ HJ) as Hpool.
  destruct HF as [A1 A2 A3 A4].
  split; [by rewrite Hc, workersCountFor_min|].
  split.
  { destruct (dpc s) eqn:E; try lia. rewrite Hpool. by apply (j_spawn _ HJ). }
  split.
  { intros Hs. destruct (dpc s) eqn:E; try done. by destruct (Hs i). }
  split; [by rewrite <- Hu|].
  split; [done|]. split; [done|].
  intros Hret.
  assert (Forall exited (workers s)) as Hex.
  { apply aliveCount_zero. rewrite <- (j_wg _ HJ). by apply (j_joined _ HJ). }
  destruct (inflight_exited _ Hex) as [Ht Hr].
  rewrite Ht, app_nil_r in A2. rewrite Hr, app_nil_r in A3. done.
Qed.

Lemma pool_size_and_one_result_per_task_witness :
  run (start [urlA; urlB]) schedAB = Some afterAB /\
  length (workers afterAB) = 2 /\
  drawn afterAB ≡ₚ Url <$> fetched afterAB /\
  fetched afterAB ≡ₚ emitted afterAB.
Proof.
  assert (run (start [urlA; urlB]) schedAB = Some afterAB) as Hrun by reflexivity.
  assert ([urlA; urlB] <> []) as Hne by discriminate.
  destruct (pool_size_and_one_result_per_task [urlA; urlB] schedAB afterAB Hne Hrun)
    as (_ & _ & Hn & _ & _ & _ & Hret).
  destruct (Hret eq_refl) as [H1 H2].
  split; [exact Hrun|]. split; [|split; [exact H1 | exact H2]].
  apply Hn. intros i. discriminate.
Defined.

(** ** First failure *)

Lemma refused_run (resp : HttpResponse) (sched : list Action) (s : State) :
  run (refused resp) sched = Some s ->
  hpc s = HReturned /\ written s = Some resp /\ dpc s = DIdle /\
  workers s = [] /\ drawn s = [] /\ fetched s = [].
Proof.
  apply (run_invariant (fun s =>
    hpc s = HReturned /\ written s = Some resp /\ dpc s = DIdle /\
    workers s = [] /\ drawn s = [] /\ fetched s = [])); [|done].
  intros s0 a s1 (H1 & H2 & H3 & H4 & H5 & H6) H.
  destruct a; step_cases H; try done; try congruence.
  all: rewrite H4 in *; done.
Qed.

(** C1, amended: whenever [Handle] has returned without having taken the
    [connectionClose] case and some call of [RequestUrl] of the run returned
    an error, the result is in the failure state: [Responses] is nil, every
    success received before is dropped, and [Error] is the text of the first
    failed result that [Handle] received; this is what is written, with
    status 200. *)
Theorem first_failure_reported (r : Request) (sched : list Action) (s : State) :
  run (Handle_begin r) sched = Some s ->
  hpc s = HReturned ->
  needToSend s = true ->
  (exists r0, r0 ∈ fetched s /\ error r0 <> None) ->
  failureState s /\
  (exists pre r0, received s = pre ++ [r0] /\ Forall succeeded pre /\
                  error r0 = Some (Error (results s))) /\
  written s = Some (reply (mkResultToUser (Error (results s)) [])).
Proof.
  intros Hrun Hret Hsend (rf & Hrf & Herr).
  destruct (Handle_validate r) as [resp|request] eqn:Hv.
  { unfold Handle_begin in Hrun. rewrite Hv in Hrun.
    destruct (refused_run _ _ _ Hrun) as (_ & _ & _ & _ & _ & Hf).
    rewrite Hf in Hrf. by apply elem_of_nil in Hrf. }
  destruct (returned_outcome _ _ _ _ Hv Hrun Hret Hsend) as [Hw [Hok | Hfail]].
  - destruct Hok as (_ & _ & Hs & _ & _).
    rewrite Forall_forall in Hs. by destruct (Herr (Hs _ Hrf)).
  - destruct Hfail as (Hnil & pre & r0 & Hrec & Hpre & He & Hin & _).
    split; [|split].
    + split; [done|]. by exists r0.
    + by exists pre, r0.
    + rewrite Hw. f_equal. f_equal. destruct (results s); simpl in *. by subst.
Qed.

Lemma first_failure_reported_witness :
  run (Handle_begin postAB) schedFailB = Some afterFailB /\
  failureState afterFailB /\
  Error (results afterFailB) = "timeout"%string /\
  written afterFailB = Some (reply (mkResultToUser "timeout"%string [])).
Proof.
  assert (run (Handle_begin postAB) schedFailB = Some afterFailB) as Hrun
    by reflexivity.
  assert (exists r0, r0 ∈ fetched afterFailB /\ error r0 <> None) as Hf.
  { exists (mkUrlResult urlB [] (Some "timeout"%string)).
    split; [|discriminate]. apply list_elem_of_In. simpl. right. left. reflexivity. }
  destruct (first_failure_reported postAB schedFailB afterFailB Hrun eq_refl eq_refl Hf)
    as (H1 & _ & H3).
  split; [exact Hrun|]. split; [exact H1|]. split; [reflexivity | exact H3].
Defined.

(** C1 as stated fails: [urlA] is fetched and collected, the fetch of [urlB]
    times out, and the client goes away before [Handle] receives the
    failure.  [Handle] returns with an empty error and the success of [urlA]
    still in [Responses]. *)
Lemma failure_unreported_after_disconnect :
  run (Handle_begin postAB) schedGoneB = Some afterGoneB /\
  hpc afterGoneB = HReturned /\
  mkUrlResult urlB [] (Some "timeout"%string) ∈ fetched afterGoneB /\
  results afterGoneB = mkResultToUser EmptyString [mkUrlResult urlA [x41] None] /\
  ~ failureState afterGoneB.
Proof.
  split; [reflexivity|]. split; [reflexivity|]. split.
  { apply list_elem_of_In. simpl. right. left. reflexivity. }
  split; [reflexivity|].
  intros [H _]. discriminate H.
Qed.

(** ** All fetches succeed *)

(** C3, amended: for a request of at most 20 URLs, whenever [Handle] has
    returned without having taken the [connectionClose] case and every call
    of [RequestUrl] of the run succeeded, the error is empty, there are as
    many responses as URLs, and the URLs of the responses are the URLs of the
    request up to order (a URL listed k times comes back k times); this is
    what is written. *)
Theorem all_succeed_all_kept
    (r : Request) (request : Urls) (sched : list Action) (s : State) :
  Method r = MethodPost -> Body r = BodyDecoded request ->
  0 < length request <= MaxUrlCount ->
  run (Handle_begin r) sched = Some s ->
  hpc s = HReturned ->
  needToSend s = true ->
  Forall succeeded (fetched s) ->
  successState request s /\ written s = Some (reply (results s)).
Proof.
  intros Hm Hb [_ Hlen] Hrun Hret Hsend Hall.
  pose proof (validate_accepts _ _ Hm Hb Hlen) as Hv.
  destruct (returned_outcome _ _ _ _ Hv Hrun Hret Hsend) as [Hw [Hok | Hfail]].
  - destruct Hok as (He & Hr & _ & _ & Hperm).
    split; [|done]. unfold successState. rewrite Hr.
    split; [done|]. split; [|done].
    apply Permutation_length in Hperm. by rewrite length_fmap in Hperm.
  - destruct Hfail as (_ & pre & r0 & _ & _ & He & Hin & _).
    rewrite Forall_forall in Hall. specialize (Hall _ Hin).
    unfold succeeded in Hall. congruence.
Qed.

Lemma all_succeed_all_kept_witness :
  run (Handle_begin postAB) schedBA = Some afterBA /\
  successState [urlA; urlB] afterBA /\
  written afterBA = Some (reply (results afterBA)).
Proof.
  assert (run (Handle_begin postAB) schedBA = Some afterBA) as Hrun by reflexivity.
  assert (Forall succeeded (fetched afterBA)) as Hall.
  { repeat constructor. }
  assert (0 < length [urlA; urlB] <= MaxUrlCount) as Hlen.
  { split; vm_compute; repeat constructor. }
  destruct (all_succeed_all_kept postAB [urlA; urlB] schedBA afterBA
              eq_refl eq_refl Hlen Hrun eq_refl eq_refl Hall) as [H1 H2].
  split; [exact Hrun|]. split; [exact H1 | exact H2].
Defined.

(** C3 as stated fails: the only URL is fetched with success and the client
    goes away before [Handle] receives the result; [Handle] returns with no
    response at all. *)
Lemma success_dropped_after_disconnect :
  run (Handle_begin postA) schedGoneA = Some afterGoneA /\
  hpc afterGoneA = HReturned /\
  Forall succeeded (fetched afterGoneA) /\
  fetched afterGoneA = [mkUrlResult urlA [x41] None] /\
  Responses (results afterGoneA) = [] /\
  ~ successState [urlA] afterGoneA.
Proof.
  split; [reflexivity|]. split; [reflexivity|]. split; [repeat constructor|].
  split; [reflexivity|]. split; [reflexivity|].
  intros (_ & H & _). discriminate H.
Qed.

(** The failure scenario of the specification: the reply of [schedFailB]. *)
Lemma timeout_reply :
  written afterFailB
  = Some (mkHttpResponse StatusOK "application/json" timeoutReplyBody).
Proof. reflexivity. Qed.

(** ** Two runs of one request *)

Lemma fetchedWith_fmap (get : string -> GetOutcome) (l : list UrlResult) :
  Forall (fun r => r = resultFor get (Url r)) l ->
  l = resultFor get <$> (Url <$> l).
Proof.
  induction 1 as [|r l Hr _ IH]; [done|].
  rewrite !fmap_cons. by rewrite <- Hr, <- IH.
Qed.

Lemma resultFor_Url (get : string -> GetOutcome) (url : string) :
  Url (resultFor get url) = url.
Proof. unfold resultFor. by destruct (RequestUrl get url). Qed.

(** What one run against a fixed fetcher replies. *)
Lemma reply_for_fetcher
    (get : string -> GetOutcome) (r : Request) (request : Urls)
    (sched : list Action) (s : State) :
  Handle_validate r = inr request ->
  run (Handle_begin r) sched = Some s ->
  hpc s = HReturned -> needToSend s = true -> fetchedWith get s ->
  written s = Some (reply (results s)) /\
  (Forall (fun u => succeeded (resultFor get u)) request ->
     Error (results s) = EmptyString /\
     Responses (results s) ≡ₚ resultFor get <$> request) /\
  (Exists (fun u => ~ succeeded (resultFor get u)) request ->
     Responses (results s) = [] /\
     exists u, u ∈ request /\ error (resultFor get u) = Some (Error (results s))).
Proof.
  intros Hv Hrun Hret Hsend Hget.
  destruct (returned_outcome _ _ _ _ Hv Hrun Hret Hsend) as [Hw [Hok | Hfail]].
  - destruct Hok as (He & Hr & Hs & Hperm & Hurls).
    assert (Forall (fun r0 => r0 = resultFor get (Url r0)) (received s)) as Hrec.
    { unfold fetchedWith in Hget. by rewrite Hperm in Hget. }
    split; [done|]. split.
    + intros _. split; [done|].
      rewrite Hr, (fetchedWith_fmap get _ Hrec). by rewrite Hurls.
    + intros Hex. exfalso.
      apply Exists_exists in Hex as (u & Hu & Hbad). apply Hbad.
      rewrite <- Hurls in Hu. apply list_elem_of_fmap in Hu as (r0 & -> & Hr0).
      rewrite Forall_forall in Hrec. rewrite <- (Hrec _ Hr0).
      rewrite Hperm in Hs. rewrite Forall_forall in Hs. by apply Hs.
  - destruct Hfail as (Hnil & pre & r0 & _ & _ & He & Hin & Hu).
    unfold fetchedWith in Hget. rewrite Forall_forall in Hget.
    pose proof (Hget _ Hin) as Hr0.
    split; [done|]. split.
    + intros Hall. exfalso.
      rewrite Forall_forall in Hall. specialize (Hall _ Hu).
      unfold succeeded in Hall. rewrite <- Hr0 in Hall. congruence.
    + intros _. split; [done|]. exists (Url r0). split; [done|]. by rewrite <- Hr0.
Qed.

Lemma results_eq (a b : ResultToUser) :
  Error a = Error b -> Responses a = Responses b -> a = b.
Proof. destruct a, b; simpl; by intros -> ->. Qed.

(** C5, amended: two runs of one accepted request against a fetcher with
    fixed results per URL, both returning without having taken the
    [connectionClose] case, reply with the same status and content type and
    with bodies that encode: when every URL of the request succeeds, an empty
    error and the same responses up to their order; when some URL fails, a
    null [responses] and the error text of one of the failing URLs.  The two
    replies are equal byte for byte when the request has at most one URL. *)
Theorem replies_agree_up_to_order
    (get : string -> GetOutcome) (r : Request) (request : Urls)
    (sched1 sched2 : list Action) (s1 s2 : State) :
  Method r = MethodPost -> Body r = BodyDecoded request ->
  length request <= MaxUrlCount ->
  run (Handle_begin r) sched1 = Some s1 -> run (Handle_begin r) sched2 = Some s2 ->
  hpc s1 = HReturned -> hpc s2 = HReturned ->
  needToSend s1 = true -> needToSend s2 = true ->
  fetchedWith get s1 -> fetchedWith get s2 ->
  written s1 = Some (reply (results s1)) /\
  written s2 = Some (reply (results s2)) /\
  (Forall (fun u => succeeded (resultFor get u)) request ->
     Error (results s1) = EmptyString /\ Error (results s2) = EmptyString /\
     Responses (results s1) ≡ₚ Responses (results s2)) /\
  (Exists (fun u => ~ succeeded (resultFor get u)) request ->
     Responses (results s1) = [] /\ Responses (results s2) = [] /\
     (exists u, u ∈ request /\ error (resultFor get u) = Some (Error (results s1))) /\
     (exists u, u ∈ request /\ error (resultFor get u) = Some (Error (results s2)))) /\
  (length request <= 1 -> written s1 = written s2).
Proof.
  intros Hm Hb Hlen Hrun1 Hrun2 Hret1 Hret2 Hsend1 Hsend2 Hget1 Hget2.
  pose proof (validate_accepts _ _ Hm Hb Hlen) as Hv.
  destruct (reply_for_fetcher get _ _ _ _ Hv Hrun1 Hret1 Hsend1 Hget1)
    as (Hw1 & Hok1 & Hbad1).
  destruct (reply_for_fetcher get _ _ _ _ Hv Hrun2 Hret2 Hsend2 Hget2)
    as (Hw2 & Hok2 & Hbad2).
  split; [done|]. split; [done|]. split; [|split].
  - intros Hall. destruct (Hok1 Hall) as [He1 Hp1]. destruct (Hok2 Hall) as [He2 Hp2].
    split; [done|]. split; [done|]. by rewrite Hp1, Hp2.
  - intros Hex. destruct (Hbad1 Hex) as [Hn1 Hu1]. destruct (Hbad2 Hex) as [Hn2 Hu2].
    done.
  - intros Hone. rewrite Hw1, Hw2. f_equal. f_equal.
    destruct request as [|u [|u' rest]]; [| |simpl in Hone; lia].
    + destruct (Hok1 (List.Forall_nil _)) as [He1 Hp1].
      destruct (Hok2 (List.Forall_nil _)) as [He2 Hp2].
      apply Permutation_nil_r in Hp1, Hp2.
      apply results_eq; congruence.
    + destruct (error (resultFor get u)) as [e|] eqn:E.
      * assert (Exists (fun u0 => ~ succeeded (resultFor get u0)) [u]) as Hex.
        { constructor. unfold succeeded. congruence. }
        destruct (Hbad1 Hex) as (Hn1 & v1 & Hv1 & He1).
        destruct (Hbad2 Hex) as (Hn2 & v2 & Hv2 & He2).
        apply list_elem_of_singleton in Hv1, Hv2. subst v1 v2.
        apply results_eq; congruence.
      * assert (Forall (fun u0 => succeeded (resultFor get u0)) [u]) as Hall.
        { by repeat constructor. }
        destruct (Hok1 Hall) as [He1 Hp1]. destruct (Hok2 Hall) as [He2 Hp2].
        simpl in Hp1, Hp2. apply Permutation_singleton_r in Hp1, Hp2.
        apply results_eq; congruence.
Qed.

Lemma replies_agree_up_to_order_witness :
  run (Handle_begin postAB) schedAB = Some afterAB /\
  run (Handle_begin postAB) schedBA = Some afterBA /\
  Responses (results afterAB) ≡ₚ Responses (results afterBA).
Proof.
  assert (run (Handle_begin postAB) schedAB = Some afterAB) as Hrun1 by reflexivity.
  assert (run (Handle_begin postAB) schedBA = Some afterBA) as Hrun2 by reflexivity.
  assert (length [urlA; urlB] <= MaxUrlCount) as Hlen.
  { vm_compute. repeat constructor. }
  assert (fetchedWith mock afterAB) as Hg1 by (repeat constructor).
  assert (fetchedWith mock afterBA) as Hg2 by (repeat constructor).
  destruct (replies_agree_up_to_order mock postAB [urlA; urlB] schedAB schedBA
              afterAB afterBA eq_refl eq_refl Hlen Hrun1 Hrun2
              eq_refl eq_refl eq_refl eq_refl Hg1 Hg2)
    as (_ & _ & Hok & _).
  assert (Forall (fun u => succeeded (resultFor mock u)) [urlA; urlB]) as Hall
    by (repeat constructor).
  destruct (Hok Hall) as (_ & _ & Hp).
  split; [exact Hrun1|]. split; [exact Hrun2 | exact Hp].
Defined.

(** C5 as stated fails: with two URLs there are two workers, and the order
    in which their results reach [pipeline] is the order of the responses in
    the body.  The same request against the same fetcher gives two
    different bodies. *)
Lemma replies_differ_in_order :
  run (Handle_begin postAB) schedAB = Some afterAB /\
  run (Handle_begin postAB) schedBA = Some afterBA /\
  fetchedWith mock afterAB /\ fetchedWith mock afterBA /\
  written afterAB = Some (reply (results afterAB)) /\
  written afterBA = Some (reply (results afterBA)) /\
  body (reply (results afterAB)) <> body (reply (results afterBA)).
Proof.
  split; [reflexivity|]. split; [reflexivity|].
  split; [repeat constructor|]. split; [repeat constructor|].
  split; [reflexivity|]. split; [reflexivity|].
  vm_compute. discriminate.
Qed.

(** ** The client goes away *)

Lemma taken_step (s s' : State) (a : Action) :
  connectionClose s = CNTaken -> step s a = Some s' -> connectionClose s' = CNTaken.
Proof. intros Hc H. destruct a; step_cases H; congruence. Qed.

Lemma close_case_step (s s' : State) :
  step s HandlerCloseNotify = Some s' -> connectionClose s' = CNTaken.
Proof. intros H. step_cases H. done. Qed.

Lemma close_case_run (s0 s : State) (sched : list Action) :
  run s0 sched = Some s -> HandlerCloseNotify ∈ sched -> connectionClose s = CNTaken.
Proof.
  revert s0. induction sched as [|a sched IH]; intros s0 Hrun Hin; simpl in Hrun.
  - by apply elem_of_nil in Hin.
  - destruct (step s0 a) as [s1|] eqn:E; [|done].
    apply elem_of_cons in Hin as [<- | Hin]; [|eauto].
    apply close_case_step in E.
    revert Hrun. apply (run_invariant (fun s => connectionClose s = CNTaken)); [|done].
    intros s2 a s3. apply taken_step.
Qed.

(** C8, amended: in every run in which the [select] of [Handle] takes the
    [connectionClose] case, [quit] is closed, the loop is left and nothing is
    ever written to the connection.  [Handle] cannot but take that case when
    the notification is there and no result waits on [pipeline]; when a
    result waits too, [select] may take either. *)
Theorem close_case_writes_nothing (r : Request) (sched : list Action) (s : State) :
  run (Handle_begin r) sched = Some s ->
  (HandlerCloseNotify ∈ sched ->
     quit s = true /\ needToSend s = false /\ (forall i, hpc s <> HLoop i) /\
     written s = None) /\
  (forall i, hpc s = HLoop i -> i < length (urls s) ->
     connectionClose s = CNPending ->
     is_Some (step s HandlerCloseNotify) /\
     step s HandlerAdvance = None /\
     (pipeline s = [] -> step s HandlerResult = None) /\
     (pipeline s <> [] -> is_Some (step s HandlerResult))).
Proof.
  intros Hrun. split.
  - intros Hin.
    pose proof (close_case_run _ _ _ Hrun Hin) as Hc.
    destruct (Inv_run _ _ _ Hrun) as (HF & HH & HJ).
    destruct (h_taken _ HH Hc) as [Hsend Hpos].
    assert (quit s = true) as Hq.
    { destruct (quit s) eqn:Hq; [done|].
      destruct (h_open _ HH Hq) as [Hs _]. congruence. }
    split; [done|]. split; [done|]. split.
    { intros i Hi. destruct (h_loop _ HH i Hi) as [Hq' _]. congruence. }
    destruct (hpc s) eqn:Hpc; try (apply (h_silent _ HH); congruence).
    assert (dpc s <> DIdle) as Hd.
    { unfold Handle_begin in Hrun. destruct (Handle_validate r) as [resp|request].
      - destruct (run_urls _ _ _ Hrun) as [Hu _]. simpl in Hu.
        rewrite Hu in Hpos. simpl in Hpos. lia.
      - by apply (launched_run _ _ _ Hrun). }
    rewrite (h_reply _ HH Hpc Hd), Hsend. done.
  - intros i Hpc Hlt Hc.
    apply Nat.ltb_lt in Hlt.
    unfold step, Handle_step. rewrite Hpc, Hc, Hlt.
    split; [by eexists|]. split; [done|]. split.
    + by intros ->.
    + intros Hp. destruct (pipeline s) as [|res rest]; [done|].
      destruct (error res); by eexists.
Qed.

Lemma close_case_writes_nothing_witness :
  run (Handle_begin postA) schedGoneA = Some afterGoneA /\
  quit afterGoneA = true /\ needToSend afterGoneA = false /\
  written afterGoneA = None.
Proof.
  assert (run (Handle_begin postA) schedGoneA = Some afterGoneA) as Hrun
    by reflexivity.
  destruct (close_case_writes_nothing postA schedGoneA afterGoneA Hrun) as [H _].
  assert (HandlerCloseNotify ∈ schedGoneA) as Hin.
  { apply list_elem_of_In. vm_compute. tauto. }
  destruct (H Hin) as (Hq & Hs & _ & Hw).
  split; [exact Hrun|]. split; [exact Hq|]. split; [exact Hs | exact Hw].
Defined.

(** C8 as stated fails: the notification arrives while [Handle] is still in
    its loop, with the only result waiting on [pipeline]; [select] takes the
    result, the loop ends, [quit] stays open and the reply is written. *)
Lemma disconnect_before_collection_still_answered :
  run (Handle_begin postA) schedLateA_before = Some duringLateA /\
  hpc duringLateA = HLoop 0 /\
  connectionClose duringLateA = CNPending /\
  run duringLateA schedLateA_after = Some afterLateA /\
  hpc afterLateA = HReturned /\
  quit afterLateA = false /\
  written afterLateA = Some (reply (mkResultToUser EmptyString [mkUrlResult urlA [x41] None])).
Proof. repeat (split; [reflexivity|]). reflexivity. Qed.

(** ** Too many URLs *)

(** C2: a POST request whose body decodes to more than 20 URLs is answered
    with status 400 at once: [Handle] has returned before anything else
    happens, [QueryUrls] is never launched, no worker exists, no task is
    drawn and [RequestUrl] is never called, whatever happens afterwards. *)
Theorem too_many_urls_refused
    (r : Request) (request : Urls) (sched : list Action) (s : State) :
  Method r = MethodPost -> Body r = BodyDecoded request ->
  MaxUrlCount < length request ->
  run (Handle_begin r) sched = Some s ->
  hpc s = HReturned /\
  (exists resp, written s = Some resp /\ status resp = StatusBadRequest) /\
  dpc s = DIdle /\ workers s = [] /\ drawn s = [] /\ fetched s = [].
Proof.
  intros Hm Hb Hlen Hrun.
  unfold Handle_begin, Handle_validate in Hrun. rewrite Hm, Hb in Hrun.
  simpl in Hrun. apply Nat.ltb_lt in Hlen. rewrite Hlen in Hrun.
  destruct (refused_run _ _ _ Hrun) as (H1 & H2 & H3 & H4 & H5 & H6).
  split; [done|]. split; [|done]. eexists. split; [exact H2 | done].
Qed.

Lemma too_many_urls_refused_witness :
  run (Handle_begin postMany) [ClientDisconnect] = Some afterMany /\
  hpc afterMany = HReturned /\
  (exists resp, written afterMany = Some resp /\ status resp = StatusBadRequest) /\
  fetched afterMany = [].
Proof.
  assert (run (Handle_begin postMany) [ClientDisconnect] = Some afterMany) as Hrun
    by reflexivity.
  assert (MaxUrlCount < length (replicate 21 urlA)) as Hlen.
  { vm_compute. repeat constructor. }
  destruct (too_many_urls_refused postMany (replicate 21 urlA) [ClientDisconnect]
              afterMany eq_refl eq_refl Hlen Hrun) as (H1 & H2 & _ & _ & _ & H6).
  split; [exact Hrun|]. split; [exact H1|]. split; [exact H2 | exact H6].
Defined.

(** ** No URL *)

(** C10: a POST request whose body decodes to an empty (or absent) URL list
    never causes a call of [RequestUrl] (no worker is even spawned); [Handle]
    does return, and when it has returned it has written status 200 with the
    body [emptyReplyBody], the JSON text with an empty error and a null
    [responses]. *)
Theorem empty_request_reply (r : Request) (sched : list Action) (s : State) :
  Method r = MethodPost -> Body r = BodyDecoded [] ->
  run (Handle_begin r) sched = Some s ->
  fetched s = [] /\ workers s = [] /\
  (exists more s', run s more = Some s' /\ hpc s' = HReturned) /\
  (hpc s = HReturned ->
     written s = Some (mkHttpResponse StatusOK "application/json" emptyReplyBody)).
Proof.
  intros Hm Hb Hrun.
  destruct (Handle_returns _ _ _ Hrun) as (more & s' & Hmore & Hret' & _).
  assert (Handle_validate r = inr []) as Hv.
  { apply (validate_accepts r [] Hm Hb). simpl. apply Nat.le_0_l. }
  pose proof (Inv_run _ _ _ Hrun) as (HF & HH & HJ).
  rewrite (accepted_begin _ _ Hv) in Hrun.
  pose proof (launched_run _ _ _ Hrun) as Hd.
  destruct (run_urls _ _ _ Hrun) as [Hu Hc]. simpl in Hu, Hc.
  destruct (flow_lengths _ HF) as (L1 & L2 & L3 & L4). rewrite Hu in L1. simpl in L1.
  assert (fetched s = []) as Hf by (apply length_zero_iff_nil; lia).
  assert (received s = []) as Hr by (apply length_zero_iff_nil; lia).
  split; [done|]. split.
  { apply length_zero_iff_nil. rewrite (j_pool _ HJ).
    change (workersCountFor []) with 0 in Hc.
    destruct (dpc s) eqn:E; try done.
    pose proof (j_spawn _ HJ i E). lia. }
  split; [by exists more, s'|].
  intros Hret.
  assert (needToSend s = true) as Hsend.
  { destruct (needToSend s) eqn:E; [done|].
    destruct (h_taken _ HH (h_nosend _ HH E)) as [_ Hpos].
    rewrite Hu in Hpos. simpl in Hpos. lia. }
  assert (quit s = false) as Hq.
  { destruct (quit s) eqn:E; [|done].
    destruct (h_failed _ HH E Hsend) as (_ & pre & r0 & Hrec & _).
    rewrite Hr in Hrec. by destruct pre. }
  destruct (h_open _ HH Hq) as (_ & He & Hresp & _).
  rewrite (h_reply _ HH Hret Hd), Hsend.
  assert (results s = emptyResult) as ->.
  { apply results_eq; simpl; congruence. }
  reflexivity.
Qed.

Lemma empty_request_reply_witness :
  run (Handle_begin postNone) schedNone = Some afterNone /\
  hpc afterNone = HReturned /\
  fetched afterNone = [] /\
  written afterNone = Some (mkHttpResponse StatusOK "application/json" emptyReplyBody).
Proof.
  assert (run (Handle_begin postNone) schedNone = Some afterNone) as Hrun
    by reflexivity.
  destruct (empty_request_reply postNone schedNone afterNone eq_refl eq_refl Hrun)
    as (H1 & _ & _ & H3).
  split; [exact Hrun|]. split; [reflexivity|]. split; [exact H1 | exact (H3 eq_refl)].
Defined.

(** ** The fetcher *)

(** C9: when [Get] yields a response and its body is read without error,
    [RequestUrl] returns the bytes read and a nil error, whatever the status
    code (which it never looks at); it returns an error only when [Get]
    failed or when reading the body failed. *)
Theorem fetch_ignores_status (get : string -> GetOutcome) (url : string) :
  (forall statusCode read,
     get url = GetResponse statusCode read None ->
     RequestUrl get url = (read, None)) /\
  (forall result err,
     RequestUrl get url = (result, Some err) ->
     (get url = GetFailed err /\ result = []) \/
     (exists statusCode, get url = GetResponse statusCode result (Some err))).
Proof.
  unfold RequestUrl. split.
  - by intros statusCode read ->.
  - intros result err H. destruct (get url) as [e|sc rd re]; simplify_eq.
    + by left.
    + right. by exists sc.
Qed.

Lemma fetch_ignores_status_witness :
  RequestUrl (fun _ => GetResponse 503 [x41] None) urlA = ([x41], None).
Proof.
  destruct (fetch_ignores_status (fun _ => GetResponse 503 [x41] None) urlA) as [H _].
  exact (H 503 [x41] eq_refl).
Defined.

(** * The admission gate *)

Module GateProofs.
Import Gate.

Lemma servingCount_insert (cs : list Conn) (c : nat) (x y : Conn) :
  cs !! c = Some x ->
  servingCount (<[c := y]> cs) + serving x = servingCount cs + serving y.
Proof.
  intros Hc. unfold servingCount.
  assert (Hlt : c < length cs) by (eapply lookup_lt_Some; eauto).
  rewrite (insert_take_drop cs c y Hlt).
  rewrite <- (take_drop_middle cs c x Hc) at 3.
  rewrite !sum_list_with_app. simpl. lia.
Qed.

Ltac gate_cases H :=
  unfold HandleConnection_step in H; repeat case_match; simplify_eq; simpl in *.

(** The channel [limiter] holds one value per request inside the wrapped
    handler, and never more than its capacity. *)
Lemma gate_slots_step (g g' : Gate) (e : Event) :
  limiter g = servingCount (conns g) /\ limiter g <= MaxSimultaneousClients ->
  HandleConnection_step g e = Some g' ->
  limiter g' = servingCount (conns g') /\ limiter g' <= MaxSimultaneousClients.
Proof.
  intros [H1 H2] H. destruct e; gate_cases H; ltb_to_prop.
  - unfold servingCount in *. rewrite sum_list_with_app. simpl. lia.
  - pose proof (servingCount_insert _ _ _ Refused H0) as Hs. simpl in Hs. lia.
  - pose proof (servingCount_insert _ _ _ Serving H0) as Hs. simpl in Hs. lia.
  - pose proof (servingCount_insert _ _ _ (Through panicked) H0) as Hs.
    simpl in Hs. lia.
  - done.
Qed.

Lemma gate_slots (es : list Event) (g : Gate) :
  run opened es = Some g ->
  limiter g = servingCount (conns g) /\ limiter g <= MaxSimultaneousClients.
Proof.
  assert (forall g0, limiter g0 = servingCount (conns g0) /\
                     limiter g0 <= MaxSimultaneousClients ->
                     run g0 es = Some g ->
                     limiter g = servingCount (conns g) /\
                     limiter g <= MaxSimultaneousClients) as Hgen.
  { induction es as [|e es IH]; intros g0 Hg0 Hrun; simpl in Hrun.
    - by simplify_eq.
    - destruct (HandleConnection_step g0 e) as [g1|] eqn:E; [|done].
      eapply IH; [|done]. eapply gate_slots_step; eauto. }
  apply Hgen. simpl. split; [done | lia].
Qed.

Lemma serving_positive (cs : list Conn) (c : nat) :
  cs !! c = Some Serving -> 0 < servingCount cs.
Proof.
  intros Hc. unfold servingCount.
  rewrite <- (take_drop_middle cs c Serving Hc).
  rewrite sum_list_with_app. simpl. lia.
Qed.

(** C6, amended: at every reachable state of the gate, for a request [c] at
    the [select]: (1) the refusal case can proceed exactly when [shutdown] is
    closed, and taking it answers 500 and leaves [limiter] as it is; (2) the
    slot case can proceed exactly when [limiter] is not full, and taking it
    adds one value and enters the wrapped handler; so with [shutdown] closed
    and a free slot both cases can proceed and [select] takes either; (3)
    when neither can proceed the request cannot move, and nothing else moves
    it from the [select]: it waits until a slot is freed or [shutdown] is
    closed; (4) a request inside the wrapped handler gives its
    slot back when the handler ends, by return or by panic. *)
Theorem gate_select_cases (es : list Event) (g : Gate) (c : nat) :
  run opened es = Some g ->
  (conns g !! c = Some Waiting ->
     (shutdown g = true ->
        exists g', HandleConnection_step g (TakeShutdown c) = Some g' /\
                   limiter g' = limiter g /\ conns g' !! c = Some Refused /\
                   option_map status (gateReply Refused) = Some StatusInternalServerError) /\
     (shutdown g = false -> HandleConnection_step g (TakeShutdown c) = None) /\
     (limiter g < MaxSimultaneousClients ->
        exists g', HandleConnection_step g (TakeSlot c) = Some g' /\
                   limiter g' = S (limiter g) /\ conns g' !! c = Some Serving) /\
     (limiter g = MaxSimultaneousClients -> HandleConnection_step g (TakeSlot c) = None) /\
     (forall e g', HandleConnection_step g e = Some g' ->
                   e <> TakeShutdown c -> e <> TakeSlot c ->
                   conns g' !! c = Some Waiting)) /\
  (conns g !! c = Some Serving ->
     forall panicked,
       exists g', HandleConnection_step g (Leave c panicked) = Some g' /\
                  limiter g' = pred (limiter g) /\
                  conns g' !! c = Some (Through panicked)).
Proof.
  intros Hrun. destruct (gate_slots _ _ Hrun) as [Hcount Hcap]. split.
  - intros Hc.
    assert (c < length (conns g)) as Hlt by (eapply lookup_lt_Some; eauto).
    split; [|split; [|split; [|split]]].
    + intros Hs. unfold HandleConnection_step. rewrite Hc, Hs. eexists. split; [done|]. simpl.
      split; [done|]. split; [|done]. by apply list_lookup_insert_eq.
    + intros Hs. unfold HandleConnection_step. by rewrite Hc, Hs.
    + intros Hl. apply Nat.ltb_lt in Hl. unfold HandleConnection_step. rewrite Hc, Hl.
      eexists. split; [done|]. simpl. split; [done|]. by apply list_lookup_insert_eq.
    + intros Hl. unfold HandleConnection_step. rewrite Hc, Hl. done.
    + intros e g' H Hne1 Hne2. destruct e; gate_cases H; try done.
      * by apply lookup_app_l_Some.
      * rewrite list_lookup_insert_ne; [done|]. congruence.
      * rewrite list_lookup_insert_ne; [done|]. congruence.
      * rewrite list_lookup_insert_ne; [done|]. congruence.
  - intros Hc panicked.
    pose proof (serving_positive _ _ Hc) as Hpos. rewrite <- Hcount in Hpos.
    assert (c < length (conns g)) as Hlt by (eapply lookup_lt_Some; eauto).
    apply Nat.ltb_lt in Hpos. unfold HandleConnection_step. rewrite Hc, Hpos.
    eexists. split; [done|]. simpl. split; [done|]. by apply list_lookup_insert_eq.
Qed.

Lemma gate_select_cases_witness :
  run opened lateArrival = Some atLateArrival /\
  (exists g', HandleConnection_step atLateArrival (TakeShutdown 0) = Some g' /\
              limiter g' = limiter atLateArrival /\ conns g' !! 0 = Some Refused /\
              option_map status (gateReply Refused) = Some StatusInternalServerError) /\
  (exists g', HandleConnection_step atLateArrival (TakeSlot 0) = Some g' /\
              limiter g' = S (limiter atLateArrival) /\ conns g' !! 0 = Some Serving).
Proof.
  assert (run opened lateArrival = Some atLateArrival) as Hrun by reflexivity.
  destruct (gate_select_cases lateArrival atLateArrival 0 Hrun) as [H _].
  destruct (H eq_refl) as (H1 & _ & H3 & _).
  split; [exact Hrun|]. split; [exact (H1 eq_refl)|].
  apply H3. vm_compute. repeat constructor.
Defined.

(** C6 as stated fails: [shutdown] is closed before the request arrives and
    a slot is free; the slot case of the [select] can proceed, and taking it
    admits the request and uses a slot. *)
Lemma gate_admits_after_shutdown :
  run opened lateArrival = Some atLateArrival /\
  shutdown atLateArrival = true /\
  HandleConnection_step atLateArrival (TakeSlot 0) = Some (mkGate 1 true [Serving]) /\
  ready atLateArrival 0 = [TakeShutdown 0; TakeSlot 0].
Proof. repeat (split; [reflexivity|]). reflexivity. Qed.

End GateProofs.

(** * Further properties of [Handle] and [QueryUrls] *)

(** ** Refused requests *)

(** Every request that lines 108-130 refuse (wrong method, unreadable body,
    malformed JSON, too many URLs) is answered at once with a plain-text
    error: 405 when the method is not POST, whatever the body is, and 400
    otherwise; [QueryUrls] is never launched and nothing is fetched. *)
Theorem refused_request_answered_at_once
    (r : Request) (resp : HttpResponse) (sched : list Action) (s : State) :
  Handle_validate r = inl resp ->
  run (Handle_begin r) sched = Some s ->
  hpc s = HReturned /\ written s = Some resp /\
  dpc s = DIdle /\ workers s = [] /\ fetched s = [] /\
  status resp = (if String.eqb (Method r) MethodPost then StatusBadRequest
                 else StatusMethodNotAllowed) /\
  contentType resp = "text/plain; charset=utf-8"%string.
Proof.
  intros Hv Hrun. unfold Handle_begin in Hrun. rewrite Hv in Hrun.
  destruct (refused_run _ _ _ Hrun) as (H1 & H2 & H3 & H4 & _ & H6).
  repeat (split; [done|]).
  unfold Handle_validate in Hv.
  destruct (String.eqb (Method r) MethodPost); simpl in Hv.
  - destruct (Body r) as [| |request]; simplify_eq; [done | done |].
    destruct (MaxUrlCount <? length request); by simplify_eq.
  - by simplify_eq.
Qed.

Lemma refused_request_answered_at_once_witness :
  run (Handle_begin getA) [ClientDisconnect] = Some afterGet /\
  fetched afterGet = [] /\
  written afterGet
  = Some (http_Error (StatusText StatusMethodNotAllowed) StatusMethodNotAllowed).
Proof.
  assert (run (Handle_begin getA) [ClientDisconnect] = Some afterGet) as Hrun
    by (vm_compute; reflexivity).
  destruct (refused_request_answered_at_once getA
              (http_Error (StatusText StatusMethodNotAllowed) StatusMethodNotAllowed)
              [ClientDisconnect] afterGet eq_refl Hrun) as (_ & Hw & _ & _ & Hf & _).
  split; [exact Hrun|]. split; [exact Hf | exact Hw].
Defined.

(** ** Bounded fan-out *)

Lemma inflight_bounded (ws : list WorkerPc) :
  length (inflightTasks ws) + length (inflightResults ws) <= length ws.
Proof.
  unfold inflightTasks, inflightResults.
  induction ws as [|w ws IH]; [done|].
  rewrite !bind_cons, !length_app. destruct w; simpl; lia.
Qed.

(** At every moment of every run at most [MaxSimultaneousUrlRequests] URLs
    of a request are between being drawn from [tasks] and being sent on
    [out] (and never more than the request has URLs): the fetches of one
    request never run more than four at a time. *)
Theorem at_most_four_fetches_in_flight (r : Request) (sched : list Action) (s : State) :
  run (Handle_begin r) sched = Some s ->
  length (inflightTasks (workers s)) + length (inflightResults (workers s))
    <= Nat.min MaxSimultaneousUrlRequests (length (urls s)).
Proof.
  intros Hrun. destruct (Inv_run _ _ _ Hrun) as (_ & _ & HJ).
  pose proof (inflight_bounded (workers s)) as Hb.
  pose proof (j_pool _ HJ) as Hp. pose proof (j_count _ HJ) as Hc.
  rewrite workersCountFor_min in Hc.
  assert (length (workers s) <= workersCount s) as Hle.
  { destruct (dpc s) eqn:E; try lia. pose proof (j_spawn _ HJ i E). lia. }
  lia.
Qed.

Lemma at_most_four_fetches_in_flight_witness :
  run (Handle_begin postAB) schedTwoDrawn = Some duringTwoDrawn /\
  length (inflightTasks (workers duringTwoDrawn))
  + length (inflightResults (workers duringTwoDrawn))
  <= Nat.min MaxSimultaneousUrlRequests (length (urls duringTwoDrawn)).
Proof.
  assert (run (Handle_begin postAB) schedTwoDrawn = Some duringTwoDrawn) as Hrun
    by (vm_compute; reflexivity).
  split; [exact Hrun|].
  exact (at_most_four_fetches_in_flight postAB schedTwoDrawn duringTwoDrawn Hrun).
Defined.

(** ** Channel capacities *)

(** The two buffered channels are large enough: a worker that holds a result
    can always send it on [out], also after [Handle] has stopped receiving,
    and [QueryUrls] can always send the next URL to [tasks].  No goroutine
    ever blocks on a send. *)
Theorem sends_never_block (r : Request) (sched : list Action) (s : State) :
  run (Handle_begin r) sched = Some s ->
  (forall w res, workers s !! w = Some (WSend res) ->
     exists s', step s (WorkerSend w) = Some s' /\ pipeline s' = pipeline s ++ [res]) /\
  (forall url rest, dpc s = DFeed (url :: rest) ->
     exists s', step s Dispatcher = Some s' /\ tasks s' = tasks s ++ [url]).
Proof.
  intros Hrun. destruct (Inv_run _ _ _ Hrun) as (HF & _ & _).
  destruct (flow_lengths _ HF) as (L1 & L2 & L3 & L4). split.
  - intros w res Hw. unfold step, worker_step. rewrite Hw.
    pose proof (holds_result _ _ _ Hw) as Hpos.
    assert (length (pipeline s) < length (urls s)) as Hlt by lia.
    apply Nat.ltb_lt in Hlt. rewrite Hlt. by eexists.
  - intros url rest Hd. unfold step, QueryUrls_step. rewrite Hd.
    unfold pendingFeed in L1. rewrite Hd in L1. simpl in L1.
    assert (length (tasks s) < length (urls s)) as Hlt by lia.
    apply Nat.ltb_lt in Hlt. rewrite Hlt. by eexists.
Qed.

Lemma sends_never_block_witness :
  run (Handle_begin postAB) schedHolding = Some duringHolding /\
  exists s', step duringHolding (WorkerSend 0) = Some s' /\
             pipeline s' = pipeline duringHolding ++ [mkUrlResult urlA [x41] None].
Proof.
  assert (run (Handle_begin postAB) schedHolding = Some duringHolding) as Hrun
    by (vm_compute; reflexivity).
  split; [exact Hrun|].
  destruct (sends_never_block postAB schedHolding duringHolding Hrun) as [H _].
  exact (H 0 (mkUrlResult urlA [x41] None) eq_refl).
Defined.

(** ** No misuse of channels and wait groups *)

(** What would panic in Go never happens: once [quit] is closed [Handle] is
    out of its loop, so neither [close(quit)] is reached again; once [tasks]
    is closed [QueryUrls] is past its feeding loop, so it neither sends to
    nor closes a closed channel; a worker that has still to call
    [wg.Done()] is counted in [wg], and [wait] is 1 until [QueryUrls]
    returns, so no counter goes below zero. *)
Theorem no_double_close_no_negative_counter
    (r : Request) (sched : list Action) (s : State) :
  run (Handle_begin r) sched = Some s ->
  (quit s = true ->
     step s HandlerCloseNotify = None /\ step s HandlerResult = None) /\
  (tasksClosed s = true ->
     forall s', step s Dispatcher = Some s' ->
                tasks s' = tasks s /\ dpc s = DWait /\ dpc s' = DReturned) /\
  (forall w x, workers s !! w = Some x -> x <> WExited -> 0 < wg s) /\
  (forall s', step s Dispatcher = Some s' -> dpc s' = DReturned -> wait s = 1).
Proof.
  intros Hrun. destruct (Inv_run _ _ _ Hrun) as (_ & HH & HJ).
  pose proof (CloseInv_run _ _ _ Hrun) as HC.
  split; [|split; [|split]].
  - intros Hq. unfold step, Handle_step.
    destruct (hpc s) as [i| |] eqn:E; try done.
    destruct (h_loop _ HH i E) as [Hq' _]. congruence.
  - intros Hc s' H. apply (c_closed _ HC) in Hc.
    unfold step, QueryUrls_step in H.
    destruct Hc as [Hd | Hd]; rewrite Hd in H; [|done].
    destruct (wg s =? 0); simplify_eq. done.
  - intros w x Hw Hx. rewrite (j_wg _ HJ). unfold aliveCount.
    pose proof (sum_list_with_in x alive (workers s)
                  (list_elem_of_lookup_2 _ _ _ Hw)) as Hle.
    destruct x; simpl in Hle; try lia. done.
  - intros s' H Hd. pose proof (j_wait _ HJ) as Hw.
    unfold step, QueryUrls_step in H.
    destruct (dpc s) as [|i|[|u rest]| |] eqn:E; try done.
    all: repeat case_match; simplify_eq; simpl in *; congruence.
Qed.

Lemma no_double_close_no_negative_counter_witness :
  run (Handle_begin postAB) schedFailB = Some afterFailB /\
  step afterFailB HandlerCloseNotify = None /\
  step afterFailB HandlerResult = None.
Proof.
  assert (run (Handle_begin postAB) schedFailB = Some afterFailB) as Hrun
    by (vm_compute; reflexivity).
  split; [exact Hrun|].
  destruct (no_double_close_no_negative_counter postAB schedFailB afterFailB Hrun)
    as [H _].
  exact (H eq_refl).
Defined.

(** ** Termination *)

Lemma fuel_begin (r : Request) :
  fuel (Handle_begin r) <= 5 * length (urls (Handle_begin r)) + 15.
Proof.
  unfold Handle_begin. destruct (Handle_validate r) as [resp|request].
  - vm_compute. lia.
  - unfold fuel, handlerFuel, dispatcherFuel, clientFuel, pendingFeed. simpl.
    pose proof (workersCountFor_min request) as Hm.
    unfold MaxSimultaneousUrlRequests in Hm. lia.
Qed.

(** [Handle] always returns: a run over a request of n URLs has at most
    5 n + 15 steps, the client's included, and as long as [Handle] has not
    returned some goroutine of the request can take a step. *)
Theorem every_run_ends_with_return (r : Request) (sched : list Action) (s : State) :
  run (Handle_begin r) sched = Some s ->
  length sched <= 5 * length (urls s) + 15 /\
  (hpc s <> HReturned ->
     exists a s', a <> ClientDisconnect /\ step s a = Some s').
Proof.
  intros Hrun. split.
  - pose proof (run_fuel _ _ _ Hrun) as Hf. pose proof (fuel_begin r) as Hb.
    destruct (run_urls _ _ _ Hrun) as [Hu _]. rewrite Hu. lia.
  - intros Hpc. exact (progress r sched s Hrun Hpc).
Qed.

Lemma every_run_ends_with_return_witness :
  run (Handle_begin postAB) schedAB = Some afterAB /\
  length schedAB <= 5 * length (urls afterAB) + 15.
Proof.
  assert (run (Handle_begin postAB) schedAB = Some afterAB) as Hrun by (vm_compute; reflexivity).
  split; [exact Hrun|].
  exact (proj1 (every_run_ends_with_return postAB schedAB afterAB Hrun)).
Defined.

(** ** After cancellation *)

Lemma cancelled_step (s s' : State) (a : Action) :
  HandlerInv s -> quit s = true -> step s a = Some s' ->
  quit s' = true /\ results s' = results s /\ received s' = received s /\
  needToSend s' = needToSend s.
Proof.
  intros HH Hq H.
  destruct a; step_cases H; try done.
  all: match goal with
       | Hpc : hpc _ = HLoop ?i |- _ =>
           destruct (h_loop _ HH i Hpc) as [Hq' _]; congruence
       end.
Qed.

(** Once [quit] is closed (first failure, or the [connectionClose] case)
    [Handle] receives nothing more: whatever the workers still fetch and
    send, [results] and [needToSend] stay as they are, so results that
    arrive after the cancellation are dropped. *)
Theorem cancelled_result_is_final
    (r : Request) (sched more : list Action) (s s' : State) :
  run (Handle_begin r) sched = Some s ->
  quit s = true ->
  run s more = Some s' ->
  quit s' = true /\ results s' = results s /\ received s' = received s /\
  needToSend s' = needToSend s.
Proof.
  intros Hrun Hq Hmore.
  pose proof (Inv_run _ _ _ Hrun) as HI.
  assert (Inv s' /\ quit s' = true /\ results s' = results s /\
          received s' = received s /\ needToSend s' = needToSend s) as H.
  { revert Hmore.
    apply (run_invariant (fun t => Inv t /\ quit t = true /\ results t = results s /\
                                   received t = received s /\
                                   needToSend t = needToSend s)); [|done].
    intros t a t' (HIt & Hqt & Hr & Hrec & Hs) Hstep.
    split; [by eapply Inv_step|].
    destruct HIt as (_ & HHt & _).
    destruct (cancelled_step _ _ _ HHt Hqt Hstep) as (H1 & H2 & H3 & H4).
    repeat split; congruence. }
  tauto.
Qed.

Lemma cancelled_result_is_final_witness :
  run (Handle_begin postAB) schedCancelled = Some duringCancelled /\
  run duringCancelled schedAfterCancel = Some afterCancelled /\
  emitted afterCancelled
  = [mkUrlResult urlB [] (Some "timeout"%string); mkUrlResult urlA [x41] None] /\
  results afterCancelled = results duringCancelled.
Proof.
  assert (run (Handle_begin postAB) schedCancelled = Some duringCancelled) as Hrun
    by (vm_compute; reflexivity).
  assert (run duringCancelled schedAfterCancel = Some afterCancelled) as Hmore
    by (vm_compute; reflexivity).
  destruct (cancelled_result_is_final postAB schedCancelled schedAfterCancel
              duringCancelled afterCancelled Hrun eq_refl Hmore) as (_ & H & _).
  split; [exact Hrun|]. split; [exact Hmore|]. split; [reflexivity | exact H].
Defined.

(** ** Order and content of the responses *)

(** When every fetch succeeded and [Handle] replies, every URL of the
    request has been drawn from [tasks] in the order of the request and
    fetched exactly once, and the responses are the results of those fetches
    as they are, in the order in which the workers sent them on [out]. *)
Theorem responses_in_order_of_arrival
    (r : Request) (request : Urls) (sched : list Action) (s : State) :
  Handle_validate r = inr request ->
  run (Handle_begin r) sched = Some s ->
  hpc s = HReturned ->
  needToSend s = true ->
  Forall succeeded (fetched s) ->
  drawn s = request /\
  Responses (results s) = emitted s /\
  fetched s ≡ₚ Responses (results s).
Proof.
  intros Hv Hrun Hret Hsend Hall.
  pose proof (Inv_run _ _ _ Hrun) as (HF & HH & HJ).
  rewrite (accepted_begin _ _ Hv) in Hrun.
  destruct (run_urls _ _ _ Hrun) as [Hu _]. simpl in Hu.
  assert (quit s = false) as Hq.
  { destruct (quit s) eqn:Hq; [|done].
    destruct (h_failed _ HH Hq Hsend) as (_ & pre & r0 & Hrec & _ & He).
    assert (r0 ∈ received s) as Hin by (rewrite Hrec; set_solver).
    destruct (received_fetched _ _ HF Hin) as [Hf _].
    rewrite Forall_forall in Hall. specialize (Hall _ Hf).
    unfold succeeded in Hall. congruence. }
  assert (forall i, hpc s <> HLoop i) as Hpc by (intros i; congruence).
  destruct (h_open _ HH Hq) as (_ & _ & Hr & _).
  pose proof (h_full _ HH Hq Hpc) as Hlen.
  destruct (flow_lengths _ HF) as (L1 & L2 & L3 & L4).
  destruct HF as [A1 A2 A3 A4].
  assert (pipeline s = []) as Hp by (apply length_zero_iff_nil; lia).
  assert (inflightResults (workers s) = []) as Hir by (apply length_zero_iff_nil; lia).
  assert (tasks s = []) as Ht by (apply length_zero_iff_nil; lia).
  assert (pendingFeed s = []) as Hf by (apply length_zero_iff_nil; lia).
  rewrite Hp, app_nil_r in A4. rewrite Hir, app_nil_r in A3.
  rewrite Ht, Hf, !app_nil_r in A1.
  split; [congruence|]. split; [congruence|]. by rewrite Hr, <- A4.
Qed.

Lemma responses_in_order_of_arrival_witness :
  run (Handle_begin postAB) schedBA = Some afterBA /\
  drawn afterBA = [urlA; urlB] /\
  Responses (results afterBA) = emitted afterBA /\
  Url <$> emitted afterBA = [urlB; urlA].
Proof.
  assert (run (Handle_begin postAB) schedBA = Some afterBA) as Hrun by (vm_compute; reflexivity).
  assert (Forall succeeded (fetched afterBA)) as Hall by (repeat constructor).
  destruct (responses_in_order_of_arrival postAB [urlA; urlB] schedBA afterBA
              eq_refl Hrun eq_refl eq_refl Hall) as (H1 & H2 & _).
  split; [exact Hrun|]. split; [exact H1|]. split; [exact H2 | reflexivity].
Defined.

(** ** Status of the reply *)

(** Whatever [Handle] writes for an accepted request is written once, at its
    return, with status 200 and content type application/json: a fetch
    failure is told in the body, never by the status, and the branch that
    answers 500 after [json.Marshal] is never taken. *)
Theorem accepted_reply_is_200_json
    (r : Request) (request : Urls) (sched : list Action) (s : State)
    (resp : HttpResponse) :
  Handle_validate r = inr request ->
  run (Handle_begin r) sched = Some s ->
  written s = Some resp ->
  hpc s = HReturned /\ needToSend s = true /\
  resp = reply (results s) /\
  status resp = StatusOK /\ contentType resp = "application/json"%string.
Proof.
  intros Hv Hrun Hw.
  pose proof (Inv_run _ _ _ Hrun) as (_ & HH & _).
  rewrite (accepted_begin _ _ Hv) in Hrun.
  pose proof (launched_run _ _ _ Hrun) as Hd.
  assert (hpc s = HReturned) as Hret.
  { destruct (hpc s) eqn:E; [| |done].
    - rewrite (h_silent _ HH) in Hw by congruence. done.
    - rewrite (h_silent _ HH) in Hw by congruence. done. }
  rewrite (h_reply _ HH Hret Hd) in Hw.
  destruct (needToSend s); [|done]. simplify_eq. done.
Qed.

Lemma accepted_reply_is_200_json_witness :
  run (Handle_begin postAB) schedFailB = Some afterFailB /\
  written afterFailB = Some (reply (results afterFailB)) /\
  status (reply (results afterFailB)) = StatusOK.
Proof.
  assert (run (Handle_begin postAB) schedFailB = Some afterFailB) as Hrun
    by (vm_compute; reflexivity).
  destruct (accepted_reply_is_200_json postAB [urlA; urlB] schedFailB afterFailB
              (reply (results afterFailB)) eq_refl Hrun eq_refl)
    as (_ & _ & _ & H & _).
  split; [exact Hrun|]. split; [reflexivity | exact H].
Defined.

(** * Further properties of [HandleConnection] *)

Module GateExtra.
Import Gate.

Lemma gate_run_invariant (P : Gate -> Prop) :
  (forall g e g', P g -> HandleConnection_step g e = Some g' -> P g') ->
  forall es g g', P g -> run g es = Some g' -> P g'.
Proof.
  intros Hstep. induction es as [|e es IH]; intros g g' Hg Hrun; simpl in Hrun.
  - by simplify_eq.
  - destruct (HandleConnection_step g e) as [g1|] eqn:E; [|done]. eauto.
Qed.

Lemma gate_count_step (g g' : Gate) (e : Event) :
  limiter g = servingCount (conns g) /\ limiter g <= MaxSimultaneousClients ->
  HandleConnection_step g e = Some g' ->
  limiter g' = servingCount (conns g') /\ limiter g' <= MaxSimultaneousClients.
Proof.
  intros [H1 H2] H. unfold HandleConnection_step in H.
  destruct e; repeat case_match; simplify_eq; simpl in *; ltb_to_prop.
  - unfold servingCount in *. rewrite sum_list_with_app. simpl. lia.
  - pose proof (sum_list_with_insert serving _ _ _ Refused H0) as Hs.
    unfold servingCount in *. simpl in Hs. lia.
  - pose proof (sum_list_with_insert serving _ _ _ Serving H0) as Hs.
    unfold servingCount in *. simpl in Hs. lia.
  - pose proof (sum_list_with_insert serving _ _ _ (Through panicked) H0) as Hs.
    unfold servingCount in *. simpl in Hs. lia.
  - done.
Qed.

(** At every moment at most [MaxSimultaneousClients] requests are inside the
    wrapped handler, and [limiter] holds exactly one value for each of them:
    no slot is lost and none is given back twice. *)
Theorem gate_never_serves_more_than_capacity (es : list Event) (g : Gate) :
  run opened es = Some g ->
  servingCount (conns g) <= MaxSimultaneousClients /\
  limiter g = servingCount (conns g).
Proof.
  intros Hrun.
  assert (limiter g = servingCount (conns g) /\ limiter g <= MaxSimultaneousClients)
    as [H1 H2].
  { revert Hrun.
    apply (gate_run_invariant
             (fun g => limiter g = servingCount (conns g) /\
                       limiter g <= MaxSimultaneousClients)).
    - intros g0 e g1. apply gate_count_step.
    - simpl. split; [done | lia]. }
  split; [lia | done].
Qed.

Lemma gate_never_serves_more_than_capacity_witness :
  run opened [Arrive; Arrive; TakeSlot 0; TakeSlot 1; Leave 0 true]
  = Some (mkGate 1 false [Through true; Serving]) /\
  servingCount [Through true; Serving] <= MaxSimultaneousClients.
Proof.
  split; [reflexivity|].
  exact (proj1 (gate_never_serves_more_than_capacity
                  [Arrive; Arrive; TakeSlot 0; TakeSlot 1; Leave 0 true]
                  (mkGate 1 false [Through true; Serving]) eq_refl)).
Defined.

(** No request is refused before [shutdown] is closed, and [shutdown], once
    closed, stays closed: while the server is not shutting down every
    request is served or waits. *)
Theorem gate_refuses_only_after_shutdown (es : list Event) (g : Gate) :
  run opened es = Some g ->
  (Refused ∈ conns g -> shutdown g = true) /\
  (forall more g', shutdown g = true -> run g more = Some g' -> shutdown g' = true).
Proof.
  intros Hrun. split.
  - revert Hrun.
    apply (gate_run_invariant (fun g => Refused ∈ conns g -> shutdown g = true)).
    + intros g0 e g1 Hg0 H. unfold HandleConnection_step in H.
      destruct e; repeat case_match; simplify_eq; simpl in *; try done.
      * intros Hin. apply elem_of_app in Hin as [Hin | Hin]; [by apply Hg0|].
        by apply list_elem_of_singleton in Hin.
      * intros Hin. apply elem_of_insert_inv in Hin as [Hin | Hin]; [done|].
        by apply Hg0.
      * intros Hin. apply elem_of_insert_inv in Hin as [Hin | Hin]; [done|].
        by apply Hg0.
    + simpl. intros Hin. by apply elem_of_nil in Hin.
  - intros more g' Hs. clear Hrun. revert g Hs.
    induction more as [|e more IH]; intros g Hs Hmore; simpl in Hmore.
    + by simplify_eq.
    + destruct (HandleConnection_step g e) as [g1|] eqn:E; [|done].
      apply (IH g1); [|done].
      unfold HandleConnection_step in E.
      destruct e; repeat case_match; simplify_eq; simpl in *; congruence.
Qed.

Lemma gate_refuses_only_after_shutdown_witness :
  run opened [Arrive; Close; TakeShutdown 0] = Some (mkGate 0 true [Refused]) /\
  shutdown (mkGate 0 true [Refused]) = true.
Proof.
  split; [reflexivity|].
  destruct (gate_refuses_only_after_shutdown [Arrive; Close; TakeShutdown 0]
              (mkGate 0 true [Refused]) eq_refl) as [H _].
  apply H. apply list_elem_of_In. left. reflexivity.
Defined.

End GateExtra.

(** * The variant without cancellation *)

Module NoCancelProofs.
Import NoCancel.

Lemma bind_insert_perm {A B : Type} (f : A -> list B) (l : list A) (i : nat) (x y : A) :
  l !! i = Some x ->
  exists rest, l ≫= f ≡ₚ f x ++ rest /\ <[i := y]> l ≫= f ≡ₚ f y ++ rest.
Proof.
  intros Hi.
  exists ((take i l ≫= f) ++ (drop (S i) l ≫= f)).
  assert (Hlt : i < length l) by (eapply lookup_lt_Some; eauto).
  split.
  - rewrite <- (take_drop_middle l i x Hi) at 1.
    rewrite bind_app, bind_cons. solve_Permutation.
  - rewrite (insert_take_drop l i y Hlt).
    rewrite bind_app, bind_cons. solve_Permutation.
Qed.

Ltac nc_cases H :=
  unfold step, Handle_step, Feeder_step, QueryUrls_step, worker_step, RequestUrl in H;
  repeat case_match; simplify_eq; simpl in *.

Ltac nc_eqs :=
  repeat match goal with
  | H : dpc _ = _ |- _ => rewrite H in *
  | H : hpc _ = _ |- _ => rewrite H in *
  | H : feeder _ = _ |- _ => rewrite H in *
  | H : out _ = _ |- _ => rewrite H in *
  | H : tasks _ = _ |- _ => rewrite H in *
  | H : notify _ = _ |- _ => rewrite H in *
  end.

Ltac nc_pool :=
  match goal with
  | Hw : workers _ !! ?w = Some _ |- context [<[?w := ?y]> (workers _)] =>
      let R1 := fresh "R" in let R2 := fresh "R" in
      let H1' := fresh "HR" in let H2' := fresh "HR" in
      destruct (bind_insert_perm taskOf _ _ _ y Hw) as (R1 & HRt & H1');
      destruct (bind_insert_perm resultOf _ _ _ y Hw) as (R2 & HRr & H2');
      simpl in HRt, H1', HRr, H2';
      rewrite ?H1', ?H2'; clear H1' H2'
  end.

Lemma nc_run_invariant (P : State -> Prop) :
  (forall s a s', P s -> step s a = Some s' -> P s') ->
  forall sched s s', P s -> run s sched = Some s' -> P s'.
Proof.
  intros Hstep. induction sched as [|a sched IH]; intros s s' Hs Hrun; simpl in Hrun.
  - by simplify_eq.
  - destruct (step s a) as [s1|] eqn:E; [|done]. eauto.
Qed.

Lemma nc_step_urls (s s' : State) (a : Action) :
  step s a = Some s' -> urls s' = urls s.
Proof. intros H. destruct a; nc_cases H; done. Qed.

Lemma nc_run_urls (s s' : State) (sched : list Action) :
  run s sched = Some s' -> urls s' = urls s.
Proof.
  apply (nc_run_invariant (fun t => urls t = urls s)); [|done].
  intros t a t' Ht H. rewrite <- Ht. by eapply nc_step_urls.
Qed.

Lemma nc_FlowInv_step (s s' : State) (a : Action) :
  FlowInv s -> step s a = Some s' -> FlowInv s'.
Proof.
  intros HI H.
  destruct a; nc_cases H; destruct HI as [A1 A2 A3 A4];
    unfold pendingFeed, inflightTasks, inflightResults in *.
  all: constructor; unfold pendingFeed, inflightTasks, inflightResults; simpl;
    nc_eqs; try done.
  all: rewrite ?bind_app, ?fmap_app; simpl; rewrite ?app_nil_r; try done.
  all: try (rewrite <- ?app_assoc; simpl; done).
  all: try (rewrite <- A1, <- ?app_assoc; simpl; done).
  all: try (rewrite A4, <- ?app_assoc; simpl; done).
  all: try (rewrite A2; solve_Permutation).
  all: nc_pool;
    match goal with
    | |- drawn _ ≡ₚ _ => rewrite A2, HRt
    | |- drawn _ ++ _ ≡ₚ _ => rewrite A2, HRt
    | |- fetched _ ≡ₚ _ => rewrite A3, HRr
    | |- fetched _ ++ _ ≡ₚ _ => rewrite A3, HRr
    end; simpl; solve_Permutation.
Qed.

Lemma lastError_snoc (l : list UrlResult) (res : UrlResult) :
  lastError (l ++ [res])
  = match error res with Some t => t | None => lastError l end.
Proof. unfold lastError. by rewrite foldl_app. Qed.

Lemma reply_written (r : ResultToUser) :
  exists text, reply r = Some (mkHttpResponse StatusOK "application/json"%string text).
Proof. unfold reply, json_Marshal. by eexists. Qed.

Lemma nc_HandlerInv_step (s s' : State) (a : Action) :
  HandlerInv s -> step s a = Some s' -> HandlerInv s'.
Proof.
  intros HI H.
  destruct a; nc_cases H; destruct HI as [B1 B2 B3].
  all: constructor; simpl; nc_eqs; try done.
  all: ltb_to_prop.
  - rewrite B1. unfold collect. simpl. by rewrite lastError_snoc.
  - intros j [= <-]. destruct (B2 _ eq_refl) as (Hl & Hle & Hw).
    rewrite length_app. simpl. split; [lia|]. split; [lia | done].
  - intros _. destruct (B2 _ eq_refl) as (Hl & Hle & Hw). split; [lia | done].
Qed.

Lemma nc_JoinInv_step (s s' : State) (a : Action) :
  JoinInv s -> step s a = Some s' -> JoinInv s'.
Proof.
  intros HI H.
  destruct a; nc_cases H; destruct HI as [J1 J2 J3].
  all: constructor; simpl; nc_eqs; try done.
  all: ltb_to_prop; rewrite ?sum_list_with_app; simpl; try lia.
  all: try (intuition congruence).
  all: try match goal with
       | Hw : workers _ !! ?w = Some _ |- context [<[?w := ?y]> (workers _)] =>
           pose proof (sum_list_with_insert alive _ _ _ y Hw) as Ha; simpl in Ha; lia
       end.
Qed.

Definition Inv (s : State) : Prop := FlowInv s /\ HandlerInv s /\ JoinInv s.

Lemma nc_Inv_start (request : Urls) : Inv (start request).
Proof.
  split; [|split]; constructor; simpl; try done.
  all: try (by rewrite ?app_nil_r).
  intros i [= <-]. split; [done|]. split; [lia | done].
Qed.

Lemma nc_Inv_run (request : Urls) (sched : list Action) (s : State) :
  run (start request) sched = Some s -> Inv s.
Proof.
  apply (nc_run_invariant Inv); [|apply nc_Inv_start].
  intros t a t' (HF & HH & HJ) H.
  split; [|split]; eauto using nc_FlowInv_step, nc_HandlerInv_step, nc_JoinInv_step.
Qed.

Lemma nc_flow_lengths (s : State) :
  FlowInv s ->
  length (urls s) = length (drawn s) + length (tasks s) + length (pendingFeed s) /\
  length (drawn s) = length (fetched s) + length (inflightTasks (workers s)) /\
  length (fetched s) = length (emitted s) + length (inflightResults (workers s)) /\
  length (emitted s) = length (received s) + length (out s).
Proof.
  intros [A1 A2 A3 A4].
  apply (f_equal length) in A1. apply Permutation_length in A2, A3.
  apply (f_equal length) in A4.
  rewrite !length_app in *. rewrite length_fmap in A2. lia.
Qed.

Lemma lastError_succeeded (l : list UrlResult) :
  Forall succeeded l -> lastError l = EmptyString.
Proof.
  induction l as [|res l IH] using rev_ind; [done|].
  intros H. apply Forall_app in H as [Hl Hres].
  inversion Hres as [|? ? Hs _]; subst. rewrite lastError_snoc.
  unfold succeeded in Hs. rewrite Hs. by apply IH.
Qed.

Lemma lastError_failed (pre post : list UrlResult) (res : UrlResult) (e : string) :
  error res = Some e -> Forall succeeded post ->
  lastError (pre ++ res :: post) = e.
Proof.
  intros He. induction post as [|x post IH] using rev_ind; intros Hpost.
  - by rewrite lastError_snoc, He.
  - apply Forall_app in Hpost as [Hpost Hx].
    inversion Hx as [|? ? Hs _]; subst.
    replace (pre ++ res :: post ++ [x]) with ((pre ++ res :: post) ++ [x])
      by (by rewrite <- app_assoc).
    rewrite lastError_snoc. unfold succeeded in Hs. rewrite Hs. by apply IH.
Qed.

(** In the variant without cancellation [Handle] collects all results and
    always replies: when it returns, there is one response per URL of the
    request, failed fetches included, in the order in which the results were
    sent on [out]; the error is the text of the last failed result received
    (empty when none failed); and the reply is written with status 200,
    whether or not the client has gone away. *)
Theorem collects_every_result (request : Urls) (sched : list Action) (s : State) :
  run (start request) sched = Some s ->
  hpc s = HReturned ->
  length (Responses (results s)) = length request /\
  Url <$> Responses (results s) ≡ₚ request /\
  Responses (results s) = emitted s /\
  fetched s ≡ₚ Responses (results s) /\
  (Forall succeeded (fetched s) -> Error (results s) = EmptyString) /\
  (forall pre res post e,
     Responses (results s) = pre ++ res :: post ->
     error res = Some e -> Forall succeeded post ->
     Error (results s) = e) /\
  exists text,
    written s = Some (mkHttpResponse StatusOK "application/json"%string text).
Proof.
  intros Hrun Hret.
  destruct (nc_Inv_run _ _ _ Hrun) as (HF & HH & HJ).
  pose proof (nc_run_urls _ _ _ Hrun) as Hu. simpl in Hu.
  destruct (h_returned _ HH Hret) as [Hlen Hw].
  pose proof (h_kept _ HH) as Hk.
  destruct (nc_flow_lengths _ HF) as (L1 & L2 & L3 & L4).
  destruct HF as [A1 A2 A3 A4].
  assert (out s = []) as Ho by (apply length_zero_iff_nil; lia).
  assert (inflightResults (workers s) = []) as Hir by (apply length_zero_iff_nil; lia).
  assert (inflightTasks (workers s) = []) as Hit by (apply length_zero_iff_nil; lia).
  assert (tasks s = []) as Ht by (apply length_zero_iff_nil; lia).
  assert (pendingFeed s = []) as Hf by (apply length_zero_iff_nil; lia).
  rewrite Ho, app_nil_r in A4. rewrite Hir, app_nil_r in A3.
  rewrite Hit, app_nil_r in A2. rewrite Ht, Hf, !app_nil_r in A1.
  rewrite Hk. simpl.
  split; [congruence|]. split.
  { rewrite <- Hu, <- A1, A2, A3, A4. done. }
  split; [done|]. split; [by rewrite A3, A4|]. split.
  { intros Hall. apply lastError_succeeded. by rewrite <- A4, <- A3. }
  split.
  { intros pre res post e -> He Hpost. by apply lastError_failed. }
  rewrite Hw. apply reply_written.
Qed.

Lemma nc_sum_insert {A : Type} (f : A -> nat) (l : list A) (i : nat) (x y : A) :
  l !! i = Some x ->
  sum_list_with f (<[i := y]> l) + f x = sum_list_with f l + f y.
Proof. apply sum_list_with_insert. Qed.

Lemma nc_step_fuel (s s' : State) (a : Action) :
  step s a = Some s' -> fuel s' < fuel s.
Proof.
  intros H.
  destruct a; nc_cases H; unfold fuel; simpl; nc_eqs; ltb_to_prop;
    rewrite ?sum_list_with_app, ?length_app; simpl; try lia.
  all: match goal with
       | Hw : workers _ !! ?w = Some _ |- context [<[?w := ?y]> (workers _)] =>
           pose proof (sum_list_with_insert weight _ _ _ y Hw) as Ha; simpl in Ha; lia
       end.
Qed.

Lemma nc_run_fuel (sched : list Action) (s s' : State) :
  run s sched = Some s' -> length sched + fuel s' <= fuel s.
Proof.
  revert s. induction sched as [|a sched IH]; intros s H; simpl in H.
  - simplify_eq. simpl. lia.
  - destruct (step s a) as [s1|] eqn:E; [|done].
    apply nc_step_fuel in E. apply IH in H. simpl. lia.
Qed.

Lemma nc_alive_worker (ws : list WorkerPc) :
  sum_list_with alive ws <> 0 -> exists w x, ws !! w = Some x /\ x <> WExited.
Proof.
  induction ws as [|x ws IH]; simpl; [done|].
  intros H. destruct x as [task|res|].
  - exists 0, (WFetch task). done.
  - exists 0, (WSend res). done.
  - destruct IH as (w & y & Hw & Hy); [simpl in H; lia|]. by exists (S w), y.
Qed.

Lemma nc_all_exited (ws : list WorkerPc) :
  sum_list_with alive ws = 0 -> inflightTasks ws = [] /\ inflightResults ws = [].
Proof.
  unfold inflightTasks, inflightResults.
  induction ws as [|x ws IH]; simpl; [done|].
  intros H. destruct x; simpl in *; try lia.
  apply IH. lia.
Qed.

(** The variant without cancellation always returns too: a run over n URLs
    has at most 5 n + 6 steps, and as long as [Handle] has not returned one
    of [Handle], [QueryUrls], the feeding goroutine or a worker can take a
    step. *)
Theorem uncancelled_run_ends_with_return
    (request : Urls) (sched : list Action) (s : State) :
  run (start request) sched = Some s ->
  length sched <= 5 * length request + 6 /\
  (hpc s <> HReturned ->
     exists a s', a <> ClientDisconnect /\ a <> Listener /\ step s a = Some s').
Proof.
  intros Hrun. split.
  { pose proof (nc_run_fuel _ _ _ Hrun) as Hf.
    unfold fuel at 2 in Hf. simpl in Hf. lia. }
  intros Hpc.
  destruct (nc_Inv_run _ _ _ Hrun) as (HF & HH & HJ).
  destruct (nc_flow_lengths _ HF) as (L1 & L2 & L3 & L4).
  destruct (hpc s) as [i|] eqn:Hh; [|done].
  destruct (h_loop _ HH i Hh) as (Hrec & Hle & _).
  destruct (i <? length (urls s)) eqn:Hi.
  2: { exists Handler. unfold step, Handle_step. rewrite Hh, Hi.
       eexists. done. }
  apply Nat.ltb_lt in Hi.
  destruct (out s) as [|res rest] eqn:Ho.
  2: { exists Handler. unfold step, Handle_step. rewrite Hh, Ho.
       apply Nat.ltb_lt in Hi. rewrite Hi. eexists. done. }
  simpl in L4.
  destruct (dpc s) eqn:Hd.
  - (* QueryUrls ranges over tasks *)
    destruct (tasks s) as [|task more] eqn:Ht.
    + destruct (feeder s) as [[|url urls']|] eqn:Hf.
      * exists Feeder. unfold step, Feeder_step. rewrite Hf. eexists. done.
      * exists Feeder. unfold step, Feeder_step. rewrite Hf, Ht. simpl.
        eexists. done.
      * exists Dispatcher. unfold step, QueryUrls_step. rewrite Hd, Ht.
        assert (tasksClosed s = true) as -> by (by apply (j_closed _ HJ)).
        eexists. done.
    + exists Dispatcher. unfold step, QueryUrls_step. rewrite Hd, Ht.
      eexists. done.
  - (* QueryUrls waits for the workers *)
    destruct (j_ranged _ HJ) as [Ht Hf]; [congruence|].
    destruct (decide (wg s = 0)) as [Hwg|Hwg].
    { exists Dispatcher. unfold step, QueryUrls_step. rewrite Hd, Hwg.
      eexists. done. }
    rewrite (j_wg _ HJ) in Hwg.
    destruct (nc_alive_worker _ Hwg) as (w & x & Hw & Hx).
    destruct x as [task|res|]; [| |done].
    + exists (WorkerFetch w (GetFailed EmptyString)).
      unfold step, worker_step. rewrite Hw. simpl. eexists. done.
    + exists (WorkerSend w). unfold step, worker_step. rewrite Hw, Ho. simpl.
      assert (0 < length (urls s)) as Hpos by lia.
      apply Nat.ltb_lt in Hpos. rewrite Hpos. eexists. done.
  - (* QueryUrls has returned: every result is on its way *)
    destruct (j_ranged _ HJ) as [Ht Hf]; [congruence|].
    destruct (decide (wg s = 0)) as [Hwg|Hwg].
    { exfalso. rewrite (j_wg _ HJ) in Hwg.
      destruct (nc_all_exited _ Hwg) as [Hit Hir].
      unfold pendingFeed in L1. rewrite Hf, Ht in L1. rewrite Hit in L2.
      rewrite Hir in L3. simpl in *. lia. }
    rewrite (j_wg _ HJ) in Hwg.
    destruct (nc_alive_worker _ Hwg) as (w & x & Hw & Hx).
    destruct x as [task|res|]; [| |done].
    + exists (WorkerFetch w (GetFailed EmptyString)).
      unfold step, worker_step. rewrite Hw. simpl. eexists. done.
    + exists (WorkerSend w). unfold step, worker_step. rewrite Hw, Ho. simpl.
      assert (0 < length (urls s)) as Hpos by lia.
      apply Nat.ltb_lt in Hpos. rewrite Hpos. eexists. done.
Qed.

Lemma collects_every_result_witness :
  run (start [urlA; urlB]) sampleSched = Some afterSample /\
  Url <$> Responses (results afterSample) = [urlB; urlA] /\
  Error (results afterSample) = "timeout"%string /\
  exists text,
    written afterSample = Some (mkHttpResponse StatusOK "application/json"%string text).
Proof.
  assert (run (start [urlA; urlB]) sampleSched = Some afterSample) as Hrun
    by (vm_compute; reflexivity).
  destruct (collects_every_result [urlA; urlB] sampleSched afterSample Hrun eq_refl)
    as (_ & _ & _ & _ & _ & _ & Hw).
  split; [exact Hrun|]. split; [reflexivity|]. split; [reflexivity | exact Hw].
Defined.

Lemma uncancelled_run_ends_with_return_witness :
  run (start [urlA; urlB]) sampleSched = Some afterSample /\
  length sampleSched <= 5 * length [urlA; urlB] + 6.
Proof.
  assert (run (start [urlA; urlB]) sampleSched = Some afterSample) as Hrun
    by (vm_compute; reflexivity).
  split; [exact Hrun|].
  exact (proj1 (uncancelled_run_ends_with_return [urlA; urlB] sampleSched
                  afterSample Hrun)).
Defined.

Lemma nc_run_cons (s : State) (a : Action) (l : list Action) :
  run s (a :: l) = match step s a with Some s' => run s' l | None => None end.
Proof. reflexivity. Qed.

Lemma spawnAll_run (rest : list string) (s : State) :
  feeder s = FFeed rest -> tasks s = [] -> dpc s = DRange ->
  exists s', run s (spawnAll rest) = Some s' /\
             feeder s' = FFeed [] /\ tasks s' = [] /\ dpc s' = DRange /\
             workers s' = workers s ++ (WFetch <$> rest) /\
             fetched s' = fetched s /\ hpc s' = hpc s.
Proof.
  revert s. induction rest as [|url rest IH]; intros s Hf Ht Hd.
  - exists s. simpl. by rewrite app_nil_r.
  - set (s1 := set_feeder (FFeed rest) (set_tasks [url] s)).
    set (s2 := set_workers (workers s ++ [WFetch url])
                 (set_wg (S (wg s)) (set_drawn (drawn s ++ [url]) (set_tasks [] s1)))).
    assert (step s Feeder = Some s1) as E1.
    { unfold step, Feeder_step. rewrite Hf, Ht. reflexivity. }
    assert (step s1 Dispatcher = Some s2) as E2.
    { unfold step, QueryUrls_step. simpl. rewrite Hd. reflexivity. }
    destruct (IH s2) as (s' & Hrun & H1 & H2 & H3 & H4 & H5 & H6); try done.
    exists s'. split.
    { change (spawnAll (url :: rest)) with (Feeder :: Dispatcher :: spawnAll rest).
      rewrite nc_run_cons, E1, nc_run_cons, E2. exact Hrun. }
    simpl in H4, H5, H6.
    repeat (split; [done|]). split; [|done].
    rewrite H4, fmap_cons, <- app_assoc. done.
Qed.

(** In the variant without cancellation the number of simultaneous fetches
    is not bounded by [MaxSimultaneousUrlRequests]: [tasks] holds at most
    four URLs, but [QueryUrls] starts a goroutine for each one it receives,
    so for every request there is a run after which all its URLs are being
    fetched at once. *)
Theorem uncancelled_fan_out_is_unbounded (request : Urls) :
  exists sched s,
    run (start request) sched = Some s /\
    inflightTasks (workers s) = request /\
    fetched s = [] /\
    length (workers s) = length request.
Proof.
  destruct (spawnAll_run request (start request) eq_refl eq_refl eq_refl)
    as (s & Hrun & _ & _ & _ & Hw & Hf & _).
  exists (spawnAll request), s. simpl in Hw, Hf.
  split; [done|]. rewrite Hw. split; [|split; [done|by rewrite length_fmap]].
  unfold inflightTasks. clear.
  induction request as [|url request IH]; [done|].
  rewrite fmap_cons, bind_cons. simpl. by rewrite IH.
Qed.

Lemma clientcheck_step_count (g g' : Gate) (e : Event) :
  limiter g = sum_list_with serving (conns g) /\ limiter g <= MaxSimultaneousClients ->
  ClientCheck_step g e = Some g' ->
  limiter g' = sum_list_with serving (conns g') /\
  limiter g' <= MaxSimultaneousClients.
Proof.
  intros [H1 H2] H. unfold ClientCheck_step in H.
  destruct e; repeat case_match; simplify_eq; simpl in *; ltb_to_prop.
  - rewrite sum_list_with_app. simpl. lia.
  - pose proof (sum_list_with_insert serving _ _ _ Serving H0) as Hs.
    simpl in Hs. lia.
  - pose proof (sum_list_with_insert serving _ _ _ (Through panicked) H0) as Hs.
    simpl in Hs. lia.
Qed.

Lemma clientcheck_count (es : list Event) (g0 g : Gate) :
  limiter g0 = sum_list_with serving (conns g0) /\ limiter g0 <= MaxSimultaneousClients ->
  serve g0 es = Some g ->
  limiter g = sum_list_with serving (conns g) /\ limiter g <= MaxSimultaneousClients.
Proof.
  revert g0. induction es as [|e es IH]; intros g0 Hg0 Hs; simpl in Hs.
  - by simplify_eq.
  - destruct (ClientCheck_step g0 e) as [g1|] eqn:E; [|done].
    eapply IH; [|done]. eapply clientcheck_step_count; eauto.
Qed.

(** [ClientCheck] never lets more than [MaxSimultaneousClients] requests into
    the wrapped handler and never turns a request away: a waiting request can
    enter exactly when fewer than 100 are inside, whatever else happens it
    stays waiting until then, and a request inside always gives its slot
    back when the handler ends, by return or by panic. *)
Theorem clientcheck_bounds_and_never_refuses (es : list Event) (g : Gate) (c : nat) :
  serve (mkGate 0 []) es = Some g ->
  sum_list_with serving (conns g) <= MaxSimultaneousClients /\
  limiter g = sum_list_with serving (conns g) /\
  (conns g !! c = Some Waiting ->
     (limiter g < MaxSimultaneousClients <-> is_Some (ClientCheck_step g (TakeSlot c))) /\
     (forall e g', ClientCheck_step g e = Some g' -> e <> TakeSlot c ->
                   conns g' !! c = Some Waiting)) /\
  (conns g !! c = Some Serving ->
     forall panicked, exists g',
       ClientCheck_step g (Leave c panicked) = Some g' /\
       limiter g' = pred (limiter g) /\ conns g' !! c = Some (Through panicked)).
Proof.
  intros Hrun.
  destruct (clientcheck_count es (mkGate 0 []) g) as [Hcount Hcap]; [|done|].
  { simpl. split; [done | lia]. }
  split; [lia|]. split; [done|]. split.
  - intros Hc. split.
    + unfold ClientCheck_step. rewrite Hc.
      destruct (limiter g <? MaxSimultaneousClients) eqn:E; ltb_to_prop.
      * split; [by eexists | done].
      * split; [lia | by intros [? ?]].
    + intros e g' H Hne. unfold ClientCheck_step in H.
      destruct e; repeat case_match; simplify_eq; simpl in *.
      * by apply lookup_app_l_Some.
      * rewrite list_lookup_insert_ne; [done | congruence].
      * rewrite list_lookup_insert_ne; [done | congruence].
  - intros Hc panicked.
    assert (0 < limiter g) as Hpos.
    { rewrite Hcount. rewrite <- (take_drop_middle _ _ _ Hc).
      rewrite sum_list_with_app. simpl. lia. }
    assert (c < length (conns g)) as Hlt by (eapply lookup_lt_Some; eauto).
    apply Nat.ltb_lt in Hpos. unfold ClientCheck_step. rewrite Hc, Hpos.
    eexists. split; [done|]. simpl. split; [done|]. by apply list_lookup_insert_eq.
Qed.

Lemma clientcheck_bounds_and_never_refuses_witness :
  serve (mkGate 0 []) [Arrive; Arrive; TakeSlot 1] = Some (mkGate 1 [Waiting; Serving]) /\
  is_Some (ClientCheck_step (mkGate 1 [Waiting; Serving]) (TakeSlot 0)).
Proof.
  split; [reflexivity|].
  destruct (clientcheck_bounds_and_never_refuses [Arrive; Arrive; TakeSlot 1]
              (mkGate 1 [Waiting; Serving]) 0 eq_refl) as (_ & _ & H & _).
  destruct (H eq_refl) as [Hiff _]. apply Hiff.
  vm_compute. repeat constructor.
Defined.

End NoCancelProofs.
